(** * SANF-AD: the transformer encoder of [pytorch_pretrained_vit/transformer.py]

    A shallow embedding of the encoder stacks ([Transformer],
    [AnomalyTransformer], [OlderAnomalyTransformer]), of the shape helpers
    ([split_last], [merge_last]) and of the masking step of
    [MultiHeadedSelfAttention.forward], with the properties the
    specification states about them. *)

From Stdlib Require Import ZArith List Bool Lia Permutation FinFun.
From Stdlib Require Import Reals Lra.
Import ListNotations.
Open Scope Z_scope.

(** ** Python exceptions and fallible results *)

(** The exceptions the modelled code raises. *)
Inductive exception : Type :=
| AssertionError
| RuntimeError
| IndexError
| UnboundLocalError
| OverflowError
| ValueError.

(** A call either returns a value or raises. *)
Inductive result (A : Type) : Type :=
| Ok (a : A)
| Raise (e : exception).

Arguments Ok {A} a.
Arguments Raise {A} e.

Definition bind {A B : Type} (r : result A) (k : A -> result B) : result B :=
  match r with
  | Ok a => k a
  | Raise e => Raise e
  end.

Notation "x <- r ;; k" := (bind r (fun x => k))
  (at level 61, r at next level, right associativity).

(** ** The encoder stacks *)

Module Encoder.

Section Stacks.

(** Sequence tensors and masks are opaque here: a stack only passes them to
    its blocks.  [size] is [Tensor.size()]. *)
Variable Tensor : Type.
Variable Mask : Type.
Variable size : Tensor -> list Z.

(** [Block.forward(x, mask)] of one block, its parameters fixed (dropout is
    the identity in evaluation mode, so the call is a function). *)
Definition Block : Type := Tensor -> option Mask -> Tensor.

(** [Block.forward] returns [x + h + h']: a tensor of the shape of [x]. *)
Definition preserves_size (b : Block) : Prop :=
  forall x mask, size (b x mask) = size x.

(** [nn.ModuleList([Block(...) for _ in range(num_layers)])]: [fresh k] is the
    block the [k]-th evaluation of [Block(...)] builds. *)
Definition ModuleList_of_range (num_layers : Z) (fresh : nat -> Block) : list Block :=
  map fresh (seq 0 (Z.to_nat num_layers)).

(** [ModuleList.__getitem__] at an integer: negative indices count from the
    end, anything outside [-len, len) raises. *)
Definition ModuleList_getitem (ms : list Block) (idx : Z) : result Block :=
  let n := Z.of_nat (length ms) in
  if (- n <=? idx) && (idx <? n) then
    match nth_error ms (Z.to_nat (if idx <? 0 then idx + n else idx)) with
    | Some b => Ok b
    | None => Raise IndexError
    end
  else Raise IndexError.

(** Applying a list of blocks in order, each to the previous one's output. *)
Definition run_blocks (bs : list Block) (x : Tensor) (mask : option Mask) : Tensor :=
  fold_left (fun x block => block x mask) bs x.

(** *** [Transformer] *)

Record Transformer : Type := { blocks : list Block }.

Definition Transformer_init (num_layers : Z) (fresh : nat -> Block) : Transformer :=
  {| blocks := ModuleList_of_range num_layers fresh |}.

(** The loop of [Transformer.forward], from index [i] on: [break] leaves with
    the current [x]. *)
Fixpoint Transformer_loop (i : Z) (bs : list Block) (x : Tensor)
    (mask : option Mask) (output_layer_ind : Z) : Tensor :=
  match bs with
  | [] => x
  | block :: rest =>
      let x := block x mask in
      if i =? output_layer_ind then x
      else Transformer_loop (i + 1) rest x mask output_layer_ind
  end.

(** [Transformer.forward(x, mask, output_layer_ind)]; the default of
    [output_layer_ind] is [-1]. *)
Definition Transformer_forward (self : Transformer) (x : Tensor)
    (mask : option Mask) (output_layer_ind : Z) : Tensor :=
  Transformer_loop 0 (blocks self) x mask output_layer_ind.

(** The same loop, recording the value of [x] after each block it applies:
    the intermediate activations of a call, in order. *)
Fixpoint Transformer_loop_trace (i : Z) (bs : list Block) (x : Tensor)
    (mask : option Mask) (output_layer_ind : Z) : list Tensor :=
  match bs with
  | [] => []
  | block :: rest =>
      let x := block x mask in
      if i =? output_layer_ind then [x]
      else x :: Transformer_loop_trace (i + 1) rest x mask output_layer_ind
  end.

Definition Transformer_activations (self : Transformer) (x : Tensor)
    (mask : option Mask) (output_layer_ind : Z) : list Tensor :=
  Transformer_loop_trace 0 (blocks self) x mask output_layer_ind.

(** The value of [x] after each block of a full pass over [bs]. *)
Fixpoint activations (bs : list Block) (x : Tensor) (mask : option Mask) : list Tensor :=
  match bs with
  | [] => []
  | block :: rest => block x mask :: activations rest (block x mask) mask
  end.

(** *** [OlderAnomalyTransformer] *)

Record OlderAnomalyTransformer : Type := {
  older_blocks : list Block;
  clone_block_ind : Z;
  cloned_block : Block
}.

Definition OlderAnomalyTransformer_init (num_layers : Z) (fresh : nat -> Block)
    (clone_block_ind : Z) (fresh_clone : Block) : OlderAnomalyTransformer :=
  {| older_blocks := ModuleList_of_range num_layers fresh;
     clone_block_ind :=
       if clone_block_ind =? -1 then num_layers - 1 else clone_block_ind;
     cloned_block := fresh_clone |}.

(** The loop of [OlderAnomalyTransformer.forward]: the final value of [x],
    and the pair [origin_block_outputs, cloned_block_outputs] when the loop
    assigned them ([None]: the two locals are still unbound). *)
Fixpoint Older_loop (i : Z) (bs : list Block) (self_clone_block_ind : Z)
    (self_cloned_block : Block) (x : Tensor) (mask : option Mask)
    : Tensor * option (Tensor * Tensor) :=
  match bs with
  | [] => (x, None)
  | block :: rest =>
      let _x := x in
      let x := block x mask in
      if i =? self_clone_block_ind then
        (x, Some (x, self_cloned_block _x mask))
      else Older_loop (i + 1) rest self_clone_block_ind self_cloned_block x mask
  end.

(** [OlderAnomalyTransformer.forward(x, mask, output_layer_ind)]: the [return]
    reads the two locals, and raises when the loop never bound them. *)
Definition OlderAnomalyTransformer_forward (self : OlderAnomalyTransformer)
    (x : Tensor) (mask : option Mask) (output_layer_ind : Z)
    : result (Tensor * Tensor) :=
  match snd (Older_loop 0 (older_blocks self) (clone_block_ind self)
               (cloned_block self) x mask) with
  | Some outputs => Ok outputs
  | None => Raise UnboundLocalError
  end.

(** *** [AnomalyTransformer] *)

Record AnomalyTransformer : Type := {
  anomaly_blocks : list Block;
  cloned_blocks : list Block
}.

Definition AnomalyTransformer_init (num_layers : Z) (fresh fresh_clone : nat -> Block)
    : AnomalyTransformer :=
  {| anomaly_blocks := ModuleList_of_range num_layers fresh;
     cloned_blocks := ModuleList_of_range num_layers fresh_clone |}.

(** The forms of the [clone_block_ind] argument: [None], a bare [int], or a
    collection of ints (list or set: only [in] is used on it). *)
Inductive clone_arg : Type :=
| CloneNone
| CloneInt (k : Z)
| CloneIndices (ks : list Z).

(** [i in clone_block_ind]. *)
Definition contains (ks : list Z) (i : Z) : bool := existsb (Z.eqb i) ks.

(** [list(range(n))]. *)
Definition range (n : nat) : list Z := map Z.of_nat (seq 0 n).

(** The two [if]s at the head of [AnomalyTransformer.forward]. *)
Definition normalize_clone_block_ind (num_blocks : nat) (arg : clone_arg) : list Z :=
  match arg with
  | CloneNone => range num_blocks
  | CloneInt k => [if k =? -1 then Z.of_nat num_blocks - 1 else k]
  | CloneIndices ks => ks
  end.

(** The result of [torch.stack]: the stacked tensors are its slices along the
    new first dimension. *)
Record Stacked : Type := { slices : list Tensor }.

Definition Stacked_size (s : Stacked) : list Z :=
  match slices s with
  | [] => [0]
  | t :: _ => Z.of_nat (length (slices s)) :: size t
  end.

Definition size_eqb (s1 s2 : list Z) : bool :=
  if list_eq_dec Z.eq_dec s1 s2 then true else false.

(** [torch.stack(tensors)] raises on an empty list and on tensors of
    different sizes. *)
Definition torch_stack (tensors : list Tensor) : result Stacked :=
  match tensors with
  | [] => Raise RuntimeError
  | t :: rest =>
      if forallb (fun u => size_eqb (size u) (size t)) rest
      then Ok {| slices := tensors |}
      else Raise RuntimeError
  end.

(** The loop of [AnomalyTransformer.forward], from index [i] on, with the two
    output lists built so far. *)
Fixpoint Anomaly_loop (i : Z) (bs : list Block) (self_cloned_blocks : list Block)
    (x : Tensor) (mask : option Mask) (clone_block_ind : list Z)
    (origin_block_outputs cloned_block_outputs : list Tensor)
    : result (list Tensor * list Tensor) :=
  match bs with
  | [] => Ok (origin_block_outputs, cloned_block_outputs)
  | block :: rest =>
      let _x := x in
      let x := block x mask in
      if contains clone_block_ind i then
        cloned_block <- ModuleList_getitem self_cloned_blocks i ;;
        let cloned_x := cloned_block _x mask in
        Anomaly_loop (i + 1) rest self_cloned_blocks x mask clone_block_ind
          (origin_block_outputs ++ [x]) (cloned_block_outputs ++ [cloned_x])
      else
        Anomaly_loop (i + 1) rest self_cloned_blocks x mask clone_block_ind
          origin_block_outputs cloned_block_outputs
  end.

(** [AnomalyTransformer.forward(x, mask, clone_block_ind)]. *)
Definition AnomalyTransformer_forward (self : AnomalyTransformer) (x : Tensor)
    (mask : option Mask) (clone_block_ind : clone_arg) : result (Stacked * Stacked) :=
  let clone_block_ind :=
    normalize_clone_block_ind (length (anomaly_blocks self)) clone_block_ind in
  outputs <- Anomaly_loop 0 (anomaly_blocks self) (cloned_blocks self) x mask
               clone_block_ind [] [] ;;
  origin <- torch_stack (fst outputs) ;;
  cloned <- torch_stack (snd outputs) ;;
  Ok (origin, cloned).

(** The layers a call selects: the positions of the stack that are in the
    normalized [clone_block_ind], in increasing order. *)
Definition selected_layers (num_blocks : nat) (clone_block_ind : list Z) : list nat :=
  filter (fun i => contains clone_block_ind (Z.of_nat i)) (seq 0 num_blocks).

(** The running state of the original path before layer [i]. *)
Definition pre_state (bs : list Block) (x : Tensor) (mask : option Mask) (i : nat) : Tensor :=
  run_blocks (firstn i bs) x mask.

(** The block at layer [i] of a stack (the identity outside it). *)
Definition layer (bs : list Block) (i : nat) : Block :=
  nth i bs (fun x _ => x).

(** The layers a call of [AnomalyTransformer.forward] selects. *)
Definition call_layers (self : AnomalyTransformer) (arg : clone_arg) : list nat :=
  selected_layers (length (anomaly_blocks self))
    (normalize_clone_block_ind (length (anomaly_blocks self)) arg).

(** *** Properties of [Transformer.forward] *)

Lemma run_blocks_cons (block : Block) (bs : list Block) (x : Tensor) (mask : option Mask) :
  run_blocks (block :: bs) x mask = run_blocks bs (block x mask) mask.
Proof. reflexivity. Qed.

Lemma activations_length (bs : list Block) (x : Tensor) (mask : option Mask) :
  length (activations bs x mask) = length bs.
Proof.
  revert x; induction bs as [|block rest IH]; intros x; simpl; [reflexivity|].
  now rewrite IH.
Qed.

Lemma activations_nth (bs : list Block) (mask : option Mask) :
  forall (n : nat) (x : Tensor), (n < length bs)%nat ->
  nth_error (activations bs x mask) n = Some (run_blocks (firstn (S n) bs) x mask).
Proof.
  induction bs as [|block rest IH]; intros n x Hn; simpl in Hn; [lia|].
  destruct n as [|n].
  - reflexivity.
  - change (nth_error (activations rest (block x mask) mask) n =
            Some (run_blocks (firstn (S n) rest) (block x mask) mask)).
    apply IH; lia.
Qed.

(** A loop whose index never meets [output_layer_ind] applies every block. *)
Lemma Transformer_loop_full (bs : list Block) (mask : option Mask) (output_layer_ind : Z) :
  forall (i : Z) (x : Tensor),
  output_layer_ind < i \/ i + Z.of_nat (length bs) <= output_layer_ind ->
  Transformer_loop i bs x mask output_layer_ind = run_blocks bs x mask /\
  Transformer_loop_trace i bs x mask output_layer_ind = activations bs x mask.
Proof.
  induction bs as [|block rest IH]; intros i x Hout.
  - split; reflexivity.
  - cbn [Transformer_loop Transformer_loop_trace activations].
    rewrite run_blocks_cons.
    cbn [length] in Hout.
    destruct (Z.eqb_spec i output_layer_ind) as [Heq|Hne]; [lia|].
    destruct (IH (i + 1) (block x mask)) as [Hl Ht]; [lia|].
    now rewrite Hl, Ht.
Qed.

(** A loop that meets [output_layer_ind] stops right after that block. *)
Lemma Transformer_loop_exit (bs : list Block) (mask : option Mask) (output_layer_ind : Z) :
  forall (i : Z) (x : Tensor),
  i <= output_layer_ind < i + Z.of_nat (length bs) ->
  let n := Z.to_nat (output_layer_ind - i) in
  Transformer_loop i bs x mask output_layer_ind = run_blocks (firstn (S n) bs) x mask /\
  Transformer_loop_trace i bs x mask output_layer_ind = firstn (S n) (activations bs x mask).
Proof.
  induction bs as [|block rest IH]; intros i x Hin n; cbn [length] in Hin; [lia|].
  cbn [Transformer_loop Transformer_loop_trace activations].
  destruct (Z.eqb_spec i output_layer_ind) as [Heq|Hne].
  - subst n; rewrite Heq, Z.sub_diag; split; reflexivity.
  - destruct (IH (i + 1) (block x mask)) as [Hl Ht]; [lia|].
    assert (Hn : n = S (Z.to_nat (output_layer_ind - (i + 1)))) by (subst n; lia).
    rewrite Hn, Hl, Ht; split; reflexivity.
Qed.

(** C3. For a valid layer index [k], [forward(x, mask, k)] returns the
    activation that the default call ([output_layer_ind = -1]) has right after
    block [k]; the early exit applies blocks [0..k] and nothing else, and the
    default call applies all the blocks. *)
Theorem Transformer_early_exit_equivalence
    (self : Transformer) (x : Tensor) (mask : option Mask) (k : Z) :
  0 <= k < Z.of_nat (length (blocks self)) ->
  nth_error (Transformer_activations self x mask (-1)) (Z.to_nat k)
    = Some (Transformer_forward self x mask k) /\
  Transformer_activations self x mask k
    = firstn (S (Z.to_nat k)) (Transformer_activations self x mask (-1)) /\
  Transformer_forward self x mask k
    = run_blocks (firstn (S (Z.to_nat k)) (blocks self)) x mask /\
  length (Transformer_activations self x mask (-1)) = length (blocks self) /\
  Transformer_forward self x mask (-1) = run_blocks (blocks self) x mask.
Proof.
  intros Hk.
  unfold Transformer_activations, Transformer_forward.
  destruct (Transformer_loop_full (blocks self) mask (-1) 0 x) as [Hfull Htrace]; [lia|].
  destruct (Transformer_loop_exit (blocks self) mask k 0 x) as [Hexit Hcut]; [lia|].
  rewrite Z.sub_0_r in Hexit, Hcut.
  rewrite Hfull, Htrace, Hexit, Hcut.
  repeat split.
  - apply activations_nth; lia.
  - apply activations_length.
Qed.

(** *** Properties of [OlderAnomalyTransformer.forward] *)

Lemma Older_loop_no_clone_point (bs : list Block) (mask : option Mask)
    (ind : Z) (clone : Block) :
  forall (i : Z) (x : Tensor),
  ind < i \/ i + Z.of_nat (length bs) <= ind ->
  Older_loop i bs ind clone x mask = (run_blocks bs x mask, None).
Proof.
  induction bs as [|block rest IH]; intros i x Hout; [reflexivity|].
  cbn [Older_loop]; rewrite run_blocks_cons.
  cbn [length] in Hout.
  destruct (Z.eqb_spec i ind) as [Heq|Hne]; [lia|].
  apply IH; lia.
Qed.

Lemma Older_loop_clone_point (bs : list Block) (mask : option Mask)
    (ind : Z) (clone : Block) :
  forall (i : Z) (x : Tensor),
  i <= ind < i + Z.of_nat (length bs) ->
  let n := Z.to_nat (ind - i) in
  Older_loop i bs ind clone x mask =
    (run_blocks (firstn (S n) bs) x mask,
     Some (run_blocks (firstn (S n) bs) x mask,
           clone (run_blocks (firstn n bs) x mask) mask)).
Proof.
  induction bs as [|block rest IH]; intros i x Hin n; cbn [length] in Hin; [lia|].
  cbn [Older_loop].
  destruct (Z.eqb_spec i ind) as [Heq|Hne].
  - subst n; rewrite Heq, Z.sub_diag; reflexivity.
  - assert (Hn : n = S (Z.to_nat (ind - (i + 1)))) by (subst n; lia).
    rewrite Hn, (IH (i + 1) (block x mask)) by lia.
    reflexivity.
Qed.

(** C10. The [output_layer_ind] argument of [OlderAnomalyTransformer.forward]
    has no effect: any two values of it give the same result. *)
Theorem Older_forward_ignores_output_layer_ind
    (self : OlderAnomalyTransformer) (x : Tensor) (mask : option Mask)
    (output_layer_ind output_layer_ind' : Z) :
  OlderAnomalyTransformer_forward self x mask output_layer_ind
    = OlderAnomalyTransformer_forward self x mask output_layer_ind'.
Proof. reflexivity. Qed.

(** C4, as the code has it. An [output_layer_ind] beyond the last layer makes
    [Transformer.forward] apply every block and return the result.  A clone
    index beyond the last layer makes the loop of
    [OlderAnomalyTransformer.forward] apply every block too, without ever
    applying the cloned block; the two outputs are then unbound and the call
    raises at its [return]. *)
Theorem index_beyond_last_layer :
  (forall (self : Transformer) (x : Tensor) (mask : option Mask) (output_layer_ind : Z),
     output_layer_ind > Z.of_nat (length (blocks self)) - 1 ->
     Transformer_forward self x mask output_layer_ind = run_blocks (blocks self) x mask /\
     length (Transformer_activations self x mask output_layer_ind) = length (blocks self)) /\
  (forall (self : OlderAnomalyTransformer) (x : Tensor) (mask : option Mask)
          (output_layer_ind : Z),
     clone_block_ind self > Z.of_nat (length (older_blocks self)) - 1 ->
     Older_loop 0 (older_blocks self) (clone_block_ind self) (cloned_block self) x mask
       = (run_blocks (older_blocks self) x mask, None) /\
     OlderAnomalyTransformer_forward self x mask output_layer_ind = Raise UnboundLocalError).
Proof.
  split.
  - intros self x mask output_layer_ind Hout.
    unfold Transformer_forward, Transformer_activations.
    destruct (Transformer_loop_full (blocks self) mask output_layer_ind 0 x)
      as [Hfull Htrace]; [lia|].
    rewrite Hfull, Htrace; split; [reflexivity|apply activations_length].
  - intros self x mask output_layer_ind Hout.
    unfold OlderAnomalyTransformer_forward.
    rewrite Older_loop_no_clone_point by lia.
    split; reflexivity.
Qed.

(** *** Further properties of [Transformer.forward] *)

Lemma ModuleList_of_range_length (num_layers : Z) (fresh : nat -> Block) :
  length (ModuleList_of_range num_layers fresh) = Z.to_nat num_layers.
Proof. unfold ModuleList_of_range; now rewrite length_map, length_seq. Qed.

Lemma Forall_firstn {X : Type} (P : X -> Prop) (n : nat) (l : list X) :
  Forall P l -> Forall P (firstn n l).
Proof.
  intros Hl; apply Forall_forall; intros a Ha.
  rewrite Forall_forall in Hl; apply Hl.
  rewrite <- (firstn_skipn n l); apply in_or_app; now left.
Qed.

Lemma Transformer_forward_outside
    (self : Transformer) (x : Tensor) (mask : option Mask) (output_layer_ind : Z) :
  output_layer_ind < 0 \/ Z.of_nat (length (blocks self)) - 1 <= output_layer_ind ->
  Transformer_forward self x mask output_layer_ind = run_blocks (blocks self) x mask.
Proof.
  intros Hout; unfold Transformer_forward.
  destruct (Z.eq_dec output_layer_ind (Z.of_nat (length (blocks self)) - 1)) as [Hlast|Hne].
  - destruct (Z.lt_ge_cases output_layer_ind 0) as [Hneg|Hpos].
    + apply (Transformer_loop_full (blocks self) mask output_layer_ind 0 x); lia.
    + destruct (Transformer_loop_exit (blocks self) mask output_layer_ind 0 x) as [Hexit _];
        [lia|].
      rewrite Hexit, firstn_all2; [reflexivity|lia].
  - apply (Transformer_loop_full (blocks self) mask output_layer_ind 0 x); lia.
Qed.

(** X1. Every [output_layer_ind] that is negative or at least
    [num_layers - 1] gives the output of the whole stack. *)
Theorem Transformer_forward_whole_stack
    (self : Transformer) (x : Tensor) (mask : option Mask) (output_layer_ind : Z) :
  output_layer_ind < 0 \/ Z.of_nat (length (blocks self)) - 1 <= output_layer_ind ->
  Transformer_forward self x mask output_layer_ind = run_blocks (blocks self) x mask.
Proof. apply Transformer_forward_outside. Qed.

(** X2. An early exit at layer [k] never evaluates a later block: two stacks
    with the same first [k + 1] blocks return the same tensor. *)
Theorem Transformer_early_exit_ignores_later_blocks
    (self self' : Transformer) (x : Tensor) (mask : option Mask) (k : Z) :
  0 <= k < Z.of_nat (length (blocks self)) ->
  0 <= k < Z.of_nat (length (blocks self')) ->
  firstn (S (Z.to_nat k)) (blocks self) = firstn (S (Z.to_nat k)) (blocks self') ->
  Transformer_forward self x mask k = Transformer_forward self' x mask k.
Proof.
  intros Hk Hk' Hprefix; unfold Transformer_forward.
  destruct (Transformer_loop_exit (blocks self) mask k 0 x) as [Hexit _]; [lia|].
  destruct (Transformer_loop_exit (blocks self') mask k 0 x) as [Hexit' _]; [lia|].
  rewrite Z.sub_0_r in Hexit, Hexit'.
  now rewrite Hexit, Hexit', Hprefix.
Qed.

Lemma Transformer_loop_size (bs : list Block) (mask : option Mask) (output_layer_ind : Z) :
  Forall preserves_size bs ->
  forall (i : Z) (x : Tensor),
  size (Transformer_loop i bs x mask output_layer_ind) = size x.
Proof.
  induction 1 as [|block rest Hb _ IH]; intros i x; [reflexivity|].
  cbn [Transformer_loop].
  destruct (i =? output_layer_ind); [apply Hb|].
  rewrite IH; apply Hb.
Qed.

(** X3. When every block keeps the shape of its input, so does
    [Transformer.forward], whatever [output_layer_ind] is. *)
Theorem Transformer_forward_size
    (self : Transformer) (x : Tensor) (mask : option Mask) (output_layer_ind : Z) :
  Forall preserves_size (blocks self) ->
  size (Transformer_forward self x mask output_layer_ind) = size x.
Proof. intros Hbs; now apply Transformer_loop_size. Qed.

Lemma Transformer_loop_app (bs1 bs2 : list Block) (mask : option Mask) (output_layer_ind : Z) :
  forall (i : Z) (x : Tensor),
  output_layer_ind < i \/ i + Z.of_nat (length bs1) <= output_layer_ind ->
  Transformer_loop i (bs1 ++ bs2) x mask output_layer_ind
    = Transformer_loop (i + Z.of_nat (length bs1)) bs2 (run_blocks bs1 x mask) mask
        output_layer_ind.
Proof.
  induction bs1 as [|block rest IH]; intros i x Hout.
  - cbn [app length Z.of_nat run_blocks fold_left]; now rewrite Z.add_0_r.
  - cbn [app Transformer_loop]; rewrite run_blocks_cons.
    cbn [length] in Hout |- *.
    destruct (Z.eqb_spec i output_layer_ind) as [Heq|_]; [lia|].
    rewrite IH by lia.
    f_equal; lia.
Qed.

Lemma Transformer_loop_shift (bs : list Block) (mask : option Mask) (c : Z) :
  forall (i output_layer_ind : Z) (x : Tensor),
  Transformer_loop (i + c) bs x mask (output_layer_ind + c)
    = Transformer_loop i bs x mask output_layer_ind.
Proof.
  induction bs as [|block rest IH]; intros i output_layer_ind x; [reflexivity|].
  cbn [Transformer_loop].
  destruct (Z.eqb_spec i output_layer_ind) as [Heq|Hne];
    destruct (Z.eqb_spec (i + c) (output_layer_ind + c)) as [Heq'|Hne'];
    try lia; try reflexivity.
  replace (i + c + 1) with (i + 1 + c) by lia.
  apply IH.
Qed.

(** X4. Stacks compose: running the stack [bs1 ++ bs2] to the end is running
    [bs1] to the end and then [bs2], and an early exit at a layer of [bs2] is
    the early exit of [bs2] at that layer, counted from the start of [bs2]. *)
Theorem Transformer_forward_app
    (bs1 bs2 : list Block) (x : Tensor) (mask : option Mask) :
  Transformer_forward {| blocks := bs1 ++ bs2 |} x mask (-1)
    = Transformer_forward {| blocks := bs2 |}
        (Transformer_forward {| blocks := bs1 |} x mask (-1)) mask (-1) /\
  (forall k : Z, 0 <= k ->
     Transformer_forward {| blocks := bs1 ++ bs2 |} x mask (Z.of_nat (length bs1) + k)
       = Transformer_forward {| blocks := bs2 |}
           (Transformer_forward {| blocks := bs1 |} x mask (-1)) mask k).
Proof.
  unfold Transformer_forward; cbn [blocks].
  destruct (Transformer_loop_full bs1 mask (-1) 0 x) as [Hfull _]; [lia|].
  rewrite Hfull; split.
  - rewrite Transformer_loop_app by lia.
    destruct (Transformer_loop_full bs2 mask (-1) (0 + Z.of_nat (length bs1))
                (run_blocks bs1 x mask)) as [H1 _]; [lia|].
    destruct (Transformer_loop_full bs2 mask (-1) 0 (run_blocks bs1 x mask)) as [H2 _]; [lia|].
    now rewrite H1, H2.
  - intros k Hk.
    rewrite Transformer_loop_app by lia.
    rewrite (Z.add_comm (Z.of_nat (length bs1)) k).
    apply Transformer_loop_shift.
Qed.

(** *** Further properties of [OlderAnomalyTransformer.forward] *)

Lemma Older_forward_inside
    (self : OlderAnomalyTransformer) (x : Tensor) (mask : option Mask)
    (output_layer_ind : Z) :
  0 <= clone_block_ind self < Z.of_nat (length (older_blocks self)) ->
  OlderAnomalyTransformer_forward self x mask output_layer_ind
    = Ok (Transformer_forward {| blocks := older_blocks self |} x mask (clone_block_ind self),
          cloned_block self
            (pre_state (older_blocks self) x mask (Z.to_nat (clone_block_ind self))) mask).
Proof.
  intros Hk; unfold OlderAnomalyTransformer_forward, Transformer_forward, pre_state.
  cbn [blocks].
  rewrite Older_loop_clone_point by lia.
  destruct (Transformer_loop_exit (older_blocks self) mask (clone_block_ind self) 0 x)
    as [Hexit _]; [lia|].
  rewrite Hexit, Z.sub_0_r; reflexivity.
Qed.

(** X5. With a clone index inside the stack, the call returns the early exit
    of the plain stack at that layer, paired with the cloned block applied to
    the state before that layer. *)
Theorem Older_forward_at_clone_point
    (self : OlderAnomalyTransformer) (x : Tensor) (mask : option Mask)
    (output_layer_ind : Z) :
  0 <= clone_block_ind self < Z.of_nat (length (older_blocks self)) ->
  OlderAnomalyTransformer_forward self x mask output_layer_ind
    = Ok (Transformer_forward {| blocks := older_blocks self |} x mask (clone_block_ind self),
          cloned_block self
            (pre_state (older_blocks self) x mask (Z.to_nat (clone_block_ind self))) mask).
Proof. apply Older_forward_inside. Qed.

(** X6. A model built with [clone_block_ind = -1] and at least one layer
    returns the output of the whole stack, paired with the cloned block
    applied to the state before the last layer. *)
Theorem Older_forward_default_clone_point
    (num_layers : Z) (fresh : nat -> Block) (fresh_clone : Block)
    (x : Tensor) (mask : option Mask) (output_layer_ind : Z) :
  1 <= num_layers ->
  OlderAnomalyTransformer_forward
    (OlderAnomalyTransformer_init num_layers fresh (-1) fresh_clone) x mask output_layer_ind
    = Ok (Transformer_forward (Transformer_init num_layers fresh) x mask (-1),
          fresh_clone
            (pre_state (ModuleList_of_range num_layers fresh) x mask
               (Z.to_nat (num_layers - 1))) mask).
Proof.
  intros Hn.
  rewrite Older_forward_inside
    by (cbn [clone_block_ind older_blocks OlderAnomalyTransformer_init Z.eqb Pos.eqb];
        rewrite ModuleList_of_range_length; lia).
  cbn [clone_block_ind older_blocks cloned_block OlderAnomalyTransformer_init Z.eqb Pos.eqb].
  rewrite !Transformer_forward_outside
    by (cbn [blocks Transformer_init]; rewrite ModuleList_of_range_length; lia).
  reflexivity.
Qed.

(** X7. A model built by the constructor raises exactly when its clone index,
    after the replacement of [-1], is not a layer of the stack: a negative
    index other than [-1], an index beyond the last layer, or any index when
    there is no layer. *)
Theorem Older_forward_raises_iff
    (num_layers : Z) (fresh : nat -> Block) (ind : Z) (fresh_clone : Block)
    (x : Tensor) (mask : option Mask) (output_layer_ind : Z) :
  OlderAnomalyTransformer_forward
    (OlderAnomalyTransformer_init num_layers fresh ind fresh_clone) x mask output_layer_ind
    = Raise UnboundLocalError
  <-> ~ (0 <= (if ind =? -1 then num_layers - 1 else ind) < num_layers).
Proof.
  set (self := OlderAnomalyTransformer_init num_layers fresh ind fresh_clone).
  change (if ind =? -1 then num_layers - 1 else ind) with (clone_block_ind self).
  assert (Hlen : length (older_blocks self) = Z.to_nat num_layers)
    by apply ModuleList_of_range_length.
  split.
  - intros Hraise Hin.
    rewrite Older_forward_inside in Hraise by lia.
    discriminate.
  - intros Hout; unfold OlderAnomalyTransformer_forward.
    rewrite Older_loop_no_clone_point; [reflexivity|lia].
Qed.

(** *** Properties of [AnomalyTransformer.forward] *)

Lemma run_blocks_snoc (pre : list Block) (block : Block) (x : Tensor) (mask : option Mask) :
  run_blocks (pre ++ [block]) x mask = block (run_blocks pre x mask) mask.
Proof. unfold run_blocks; now rewrite fold_left_app. Qed.

Lemma layer_middle (pre rest : list Block) (block : Block) :
  layer (pre ++ block :: rest) (length pre) = block.
Proof. unfold layer; apply nth_middle. Qed.

Lemma pre_state_middle (pre bs : list Block) (x : Tensor) (mask : option Mask) :
  pre_state (pre ++ bs) x mask (length pre) = run_blocks pre x mask.
Proof.
  unfold pre_state.
  now rewrite firstn_app, firstn_all, Nat.sub_diag, firstn_O, app_nil_r.
Qed.

Lemma pre_state_step (bs : list Block) (x : Tensor) (mask : option Mask) (i : nat) :
  (i < length bs)%nat ->
  pre_state bs x mask (S i) = layer bs i (pre_state bs x mask i) mask.
Proof.
  intros Hi.
  destruct (nth_split bs (fun x _ => x) Hi) as (pre & rest & Hbs & Hlen).
  fold (layer bs i) in Hbs.
  rewrite Hbs at 1 3; subst i.
  rewrite pre_state_middle.
  replace (pre ++ layer bs (length pre) :: rest)
    with ((pre ++ [layer bs (length pre)]) ++ rest) by now rewrite <- app_assoc.
  replace (S (length pre)) with (length (pre ++ [layer bs (length pre)]))
    by (rewrite length_app; simpl; lia).
  now rewrite pre_state_middle, run_blocks_snoc.
Qed.

Lemma ModuleList_getitem_layer (ms : list Block) (n : nat) :
  (n < length ms)%nat -> ModuleList_getitem ms (Z.of_nat n) = Ok (layer ms n).
Proof.
  intros Hn; unfold ModuleList_getitem, layer.
  replace (- Z.of_nat (length ms) <=? Z.of_nat n) with true by (symmetry; apply Z.leb_le; lia).
  replace (Z.of_nat n <? Z.of_nat (length ms)) with true by (symmetry; apply Z.ltb_lt; lia).
  replace (Z.of_nat n <? 0) with false by (symmetry; apply Z.ltb_ge; lia).
  cbn [andb]; rewrite Nat2Z.id.
  now rewrite (nth_error_nth' ms (fun x _ => x) Hn).
Qed.

(** What the loop computes: with [pre] the blocks already applied, the two
    lists grow by the outputs of the original and of the cloned block of each
    remaining selected layer, both applied to the original path's state before
    that layer. *)
Lemma Anomaly_loop_outputs (cl : list Block) (mask : option Mask) (sel : list Z) (x0 : Tensor) :
  forall (bs pre : list Block) (o c : list Tensor),
  (length pre + length bs <= length cl)%nat ->
  Anomaly_loop (Z.of_nat (length pre)) bs cl (run_blocks pre x0 mask) mask sel o c =
  Ok (o ++ map (fun j => layer (pre ++ bs) j (pre_state (pre ++ bs) x0 mask j) mask)
             (filter (fun j => contains sel (Z.of_nat j)) (seq (length pre) (length bs))),
      c ++ map (fun j => layer cl j (pre_state (pre ++ bs) x0 mask j) mask)
             (filter (fun j => contains sel (Z.of_nat j)) (seq (length pre) (length bs)))).
Proof.
  induction bs as [|block rest IH]; intros pre o c Hlen.
  - cbn; now rewrite !app_nil_r.
  - cbn [Anomaly_loop length seq filter].
    cbn [length] in Hlen.
    assert (Hnext : Z.of_nat (length pre) + 1 = Z.of_nat (length (pre ++ [block])))
      by (rewrite length_app; simpl; lia).
    assert (Hseq : S (length pre) = length (pre ++ [block]))
      by (rewrite length_app; simpl; lia).
    assert (Happ : pre ++ block :: rest = (pre ++ [block]) ++ rest)
      by now rewrite <- app_assoc.
    rewrite Hnext, <- run_blocks_snoc, Hseq.
    destruct (contains sel (Z.of_nat (length pre))) eqn:Hsel.
    + rewrite ModuleList_getitem_layer by lia.
      cbn [bind map].
      rewrite IH by (rewrite length_app; simpl; lia).
      rewrite <- Happ, <- !app_assoc; cbn [app].
      rewrite layer_middle, pre_state_middle, run_blocks_snoc.
      reflexivity.
    + rewrite IH by (rewrite length_app; simpl; lia).
      now rewrite <- Happ.
Qed.

(** A loop that selects none of its layers leaves the two lists as they are. *)
Lemma Anomaly_loop_nothing_selected (cl : list Block) (mask : option Mask) (sel : list Z) :
  forall (bs : list Block) (i : Z) (x : Tensor) (o c : list Tensor),
  (forall j, i <= j < i + Z.of_nat (length bs) -> contains sel j = false) ->
  Anomaly_loop i bs cl x mask sel o c = Ok (o, c).
Proof.
  induction bs as [|block rest IH]; intros i x o c Hsel; [reflexivity|].
  cbn [Anomaly_loop]; cbn [length] in Hsel.
  rewrite (Hsel i) by lia.
  apply IH; intros j Hj; apply Hsel; lia.
Qed.

Lemma run_blocks_size (bs : list Block) (mask : option Mask) :
  Forall preserves_size bs -> forall x, size (run_blocks bs x mask) = size x.
Proof.
  induction 1 as [|block rest Hb _ IH]; intros x; [reflexivity|].
  rewrite run_blocks_cons, IH; apply Hb.
Qed.

Lemma pre_state_size (bs : list Block) (x : Tensor) (mask : option Mask) (i : nat) :
  Forall preserves_size bs -> size (pre_state bs x mask i) = size x.
Proof.
  intros Hbs; unfold pre_state; apply run_blocks_size.
  apply Forall_forall; intros b Hb.
  rewrite Forall_forall in Hbs; apply Hbs.
  rewrite <- (firstn_skipn i bs); apply in_or_app; now left.
Qed.

Lemma layer_preserves_size (bs : list Block) (i : nat) :
  Forall preserves_size bs -> preserves_size (layer bs i).
Proof.
  intros Hbs; unfold layer.
  destruct (Nat.lt_ge_cases i (length bs)) as [Hi|Hi].
  - rewrite Forall_forall in Hbs; apply Hbs, nth_In, Hi.
  - rewrite nth_overflow by exact Hi; intros x mask; reflexivity.
Qed.

Lemma size_eqb_refl (s : list Z) : size_eqb s s = true.
Proof. unfold size_eqb; destruct (list_eq_dec Z.eq_dec s s); congruence. Qed.

(** [torch.stack] of a non-empty list of tensors of one size. *)
Lemma torch_stack_same_size (ts : list Tensor) (s : list Z) :
  ts <> [] -> Forall (fun t => size t = s) ts ->
  torch_stack ts = Ok {| slices := ts |} /\
  Stacked_size {| slices := ts |} = Z.of_nat (length ts) :: s.
Proof.
  intros Hne Hall; destruct ts as [|t rest]; [congruence|].
  inversion Hall as [|? ? Ht Hrest]; subst.
  unfold torch_stack, Stacked_size; cbn [slices].
  replace (forallb (fun u => size_eqb (size u) (size t)) rest) with true; [now split|].
  symmetry; apply forallb_forall; intros u Hu.
  rewrite Forall_forall in Hrest; rewrite (Hrest u Hu); apply size_eqb_refl.
Qed.

(** The outputs of a call on a well-formed model, whatever it selects. *)
Lemma AnomalyTransformer_forward_unfold (self : AnomalyTransformer) (x : Tensor)
    (mask : option Mask) (arg : clone_arg) :
  length (cloned_blocks self) = length (anomaly_blocks self) ->
  AnomalyTransformer_forward self x mask arg =
    (origin <- torch_stack
       (map (fun i => layer (anomaly_blocks self) i
                        (pre_state (anomaly_blocks self) x mask i) mask)
            (call_layers self arg)) ;;
     cloned <- torch_stack
       (map (fun i => layer (cloned_blocks self) i
                        (pre_state (anomaly_blocks self) x mask i) mask)
            (call_layers self arg)) ;;
     Ok (origin, cloned)).
Proof.
  intros Hlen; unfold AnomalyTransformer_forward.
  pose proof (Anomaly_loop_outputs (cloned_blocks self) mask
    (normalize_clone_block_ind (length (anomaly_blocks self)) arg) x
    (anomaly_blocks self) [] [] []) as Hloop.
  cbn [length app Z.of_nat Nat.add] in Hloop.
  change (run_blocks [] x mask) with x in Hloop.
  rewrite Hloop by lia.
  reflexivity.
Qed.

Lemma call_layers_in_range (self : AnomalyTransformer) (arg : clone_arg) (i : nat) :
  In i (call_layers self arg) -> (i < length (anomaly_blocks self))%nat.
Proof.
  unfold call_layers, selected_layers; intros Hi.
  apply filter_In in Hi as [Hi _]; apply in_seq in Hi; lia.
Qed.

(** A call that selects at least one layer returns, and this is what it returns. *)
Lemma AnomalyTransformer_forward_selected (self : AnomalyTransformer) (x : Tensor)
    (mask : option Mask) (arg : clone_arg) :
  length (cloned_blocks self) = length (anomaly_blocks self) ->
  Forall preserves_size (anomaly_blocks self) ->
  Forall preserves_size (cloned_blocks self) ->
  call_layers self arg <> [] ->
  let origin := {| slices := map (fun i => layer (anomaly_blocks self) i
                     (pre_state (anomaly_blocks self) x mask i) mask) (call_layers self arg) |} in
  let cloned := {| slices := map (fun i => layer (cloned_blocks self) i
                     (pre_state (anomaly_blocks self) x mask i) mask) (call_layers self arg) |} in
  AnomalyTransformer_forward self x mask arg = Ok (origin, cloned) /\
  Stacked_size origin = Z.of_nat (length (call_layers self arg)) :: size x /\
  Stacked_size cloned = Z.of_nat (length (call_layers self arg)) :: size x.
Proof.
  intros Hlen Hbs Hcl Hne; cbv zeta.
  rewrite AnomalyTransformer_forward_unfold by exact Hlen.
  set (os := map _ (call_layers self arg)).
  set (cs := map _ (call_layers self arg)).
  destruct (torch_stack_same_size os (size x)) as [Ho Hso].
  { subst os; destruct (call_layers self arg); [congruence|discriminate]. }
  { apply Forall_forall; intros t Ht.
    apply in_map_iff in Ht as (i & <- & _).
    now rewrite layer_preserves_size, pre_state_size. }
  destruct (torch_stack_same_size cs (size x)) as [Hc Hsc].
  { subst cs; destruct (call_layers self arg); [congruence|discriminate]. }
  { apply Forall_forall; intros t Ht.
    apply in_map_iff in Ht as (i & <- & _).
    now rewrite layer_preserves_size, pre_state_size. }
  rewrite Ho; cbn [bind]; rewrite Hc; cbn [bind].
  rewrite Hso, Hsc; subst os cs; rewrite !length_map.
  now repeat split.
Qed.

(** C1. On a well-formed model (two stacks of equal length, blocks that keep
    the shape of their input), a call that selects at least one layer returns
    two stacked tensors.  Their slices pair, for each selected layer [i] in
    increasing order, the output of [blocks[i]] (which is the original path's
    state after layer [i]) with the output of [cloned_blocks[i]], both applied
    to the original path's state before layer [i]; each stacked tensor has
    the number of selected layers as its first dimension, followed by the
    shape of [x]. *)
Theorem AnomalyTransformer_forward_pairs (self : AnomalyTransformer) (x : Tensor)
    (mask : option Mask) (arg : clone_arg) :
  length (cloned_blocks self) = length (anomaly_blocks self) ->
  Forall preserves_size (anomaly_blocks self) ->
  Forall preserves_size (cloned_blocks self) ->
  call_layers self arg <> [] ->
  exists origin cloned : Stacked,
    AnomalyTransformer_forward self x mask arg = Ok (origin, cloned) /\
    slices origin = map (fun i => layer (anomaly_blocks self) i
                       (pre_state (anomaly_blocks self) x mask i) mask) (call_layers self arg) /\
    slices cloned = map (fun i => layer (cloned_blocks self) i
                       (pre_state (anomaly_blocks self) x mask i) mask) (call_layers self arg) /\
    slices origin = map (fun i => pre_state (anomaly_blocks self) x mask (S i))
                      (call_layers self arg) /\
    Stacked_size origin = Z.of_nat (length (call_layers self arg)) :: size x /\
    Stacked_size cloned = Z.of_nat (length (call_layers self arg)) :: size x.
Proof.
  intros Hlen Hbs Hcl Hne.
  destruct (AnomalyTransformer_forward_selected self x mask arg Hlen Hbs Hcl Hne)
    as (Hfwd & Hso & Hsc).
  eexists; eexists; split; [exact Hfwd|].
  cbn [slices]; repeat split; try assumption.
  apply map_ext_in; intros i Hi; symmetry.
  apply pre_state_step, (call_layers_in_range self arg i Hi).
Qed.

(** C9. A call whose normalized [clone_block_ind] holds no index of the stack
    raises, from [torch.stack] on an empty list.  A list or set is taken as it
    is, so one that holds only [-1] or only out-of-range indices raises too. *)
Theorem AnomalyTransformer_forward_empty_selection (self : AnomalyTransformer)
    (x : Tensor) (mask : option Mask) :
  (forall arg : clone_arg,
     (forall i, 0 <= i < Z.of_nat (length (anomaly_blocks self)) ->
        contains (normalize_clone_block_ind (length (anomaly_blocks self)) arg) i = false) ->
     AnomalyTransformer_forward self x mask arg = Raise RuntimeError) /\
  (forall ks : list Z,
     (forall k, In k ks -> k < 0 \/ Z.of_nat (length (anomaly_blocks self)) <= k) ->
     normalize_clone_block_ind (length (anomaly_blocks self)) (CloneIndices ks) = ks /\
     AnomalyTransformer_forward self x mask (CloneIndices ks) = Raise RuntimeError).
Proof.
  assert (Hgen : forall arg : clone_arg,
     (forall i, 0 <= i < Z.of_nat (length (anomaly_blocks self)) ->
        contains (normalize_clone_block_ind (length (anomaly_blocks self)) arg) i = false) ->
     AnomalyTransformer_forward self x mask arg = Raise RuntimeError).
  { intros arg Hnone; unfold AnomalyTransformer_forward.
    rewrite Anomaly_loop_nothing_selected; [reflexivity|].
    intros j Hj; apply Hnone; lia. }
  split; [exact Hgen|].
  intros ks Hks; split; [reflexivity|].
  apply Hgen; intros i Hi; cbn [normalize_clone_block_ind].
  unfold contains.
  destruct (existsb (Z.eqb i) ks) eqn:Hex; [|reflexivity].
  apply existsb_exists in Hex as (k & Hk & Heq).
  apply Z.eqb_eq in Heq; subst k.
  destruct (Hks i Hk); lia.
Qed.

Lemma contains_In (ks : list Z) (i : Z) : contains ks i = true <-> In i ks.
Proof.
  unfold contains; rewrite existsb_exists; split.
  - intros (k & Hk & Heq); apply Z.eqb_eq in Heq; now subst.
  - intros Hi; exists i; split; [exact Hi|apply Z.eqb_refl].
Qed.

Lemma filter_none {A : Type} (f : A -> bool) (l : list A) :
  (forall a, In a l -> f a = false) -> filter f l = [].
Proof.
  induction l as [|a l IH]; intros Hf; [reflexivity|].
  cbn [filter]; rewrite (Hf a) by now left.
  apply IH; intros b Hb; apply Hf; now right.
Qed.

Lemma selected_layers_single (n : nat) (k : nat) :
  (k < n)%nat -> selected_layers n [Z.of_nat k] = [k].
Proof.
  intros Hk; unfold selected_layers.
  replace n with (k + S (n - S k))%nat at 1 by lia.
  rewrite seq_app, filter_app; cbn [seq filter Nat.add].
  replace (contains [Z.of_nat k] (Z.of_nat k)) with true
    by (symmetry; apply contains_In; now left).
  rewrite (filter_none _ (seq 0 k)), (filter_none _ (seq (S k) _)); [reflexivity| |].
  - intros j Hj; apply in_seq in Hj.
    destruct (contains [Z.of_nat k] (Z.of_nat j)) eqn:Hc; [|reflexivity].
    apply contains_In in Hc as [Hc|[]]; lia.
  - intros j Hj; apply in_seq in Hj.
    destruct (contains [Z.of_nat k] (Z.of_nat j)) eqn:Hc; [|reflexivity].
    apply contains_In in Hc as [Hc|[]]; lia.
Qed.


Lemma torch_stack_nil : torch_stack [] = Raise RuntimeError.
Proof. reflexivity. Qed.

(** C2. Two calls on the same input and mask, on models with the same original
    blocks and any cloned blocks: both raise the same exception, or both
    return and the first returned tensors are equal.  The cloned output of a
    selected layer [k] is [cloned_blocks[k]] applied to the original path's
    state before layer [k], a state that only the original blocks determine;
    so it is the same in both calls as soon as the two models agree on the
    cloned block of layer [k], whatever their other cloned blocks are. *)
Theorem cloned_blocks_never_influence_original_path
    (self self' : AnomalyTransformer) (x : Tensor) (mask : option Mask) (arg : clone_arg) :
  anomaly_blocks self' = anomaly_blocks self ->
  length (cloned_blocks self) = length (anomaly_blocks self) ->
  length (cloned_blocks self') = length (anomaly_blocks self) ->
  Forall preserves_size (anomaly_blocks self) ->
  Forall preserves_size (cloned_blocks self) ->
  Forall preserves_size (cloned_blocks self') ->
  match AnomalyTransformer_forward self x mask arg,
        AnomalyTransformer_forward self' x mask arg with
  | Ok (origin, cloned), Ok (origin', cloned') =>
      origin' = origin /\
      forall p k : nat, nth_error (call_layers self arg) p = Some k ->
        nth_error (slices cloned) p
          = Some (layer (cloned_blocks self) k
                    (pre_state (anomaly_blocks self) x mask k) mask) /\
        nth_error (slices cloned') p
          = Some (layer (cloned_blocks self') k
                    (pre_state (anomaly_blocks self) x mask k) mask) /\
        (layer (cloned_blocks self') k = layer (cloned_blocks self) k ->
         nth_error (slices cloned') p = nth_error (slices cloned) p)
  | Raise e, Raise e' => e' = e
  | _, _ => False
  end.
Proof.
  intros Hsame Hlen Hlen' Hbs Hcl Hcl'.
  assert (Hlayers : call_layers self' arg = call_layers self arg)
    by (unfold call_layers; now rewrite Hsame).
  destruct (call_layers self arg) as [|i0 rest] eqn:Hcall.
  - rewrite !AnomalyTransformer_forward_unfold by congruence.
    rewrite Hlayers, Hcall; reflexivity.
  - destruct (AnomalyTransformer_forward_selected self x mask arg) as (Hf & _);
      [assumption|assumption|assumption|congruence|].
    destruct (AnomalyTransformer_forward_selected self' x mask arg) as (Hf' & _);
      [congruence|congruence|assumption|congruence|].
    rewrite Hf, Hf', Hlayers, Hsame, Hcall.
    split; [reflexivity|].
    intros p k Hp; cbn [slices]; rewrite !nth_error_map, Hp; cbn [option_map].
    repeat split; intros Heq; now rewrite Heq.
Qed.

(** *** Further properties of [AnomalyTransformer.forward] *)

Lemma torch_stack_raises (ts : list Tensor) (e : exception) :
  torch_stack ts = Raise e -> e = RuntimeError.
Proof.
  unfold torch_stack; destruct ts as [|t rest]; [now intros [= <-]|].
  destruct (forallb _ rest); [discriminate|now intros [= <-]].
Qed.

(** X8. The constructor builds two stacks of [num_layers] blocks each (none
    when [num_layers] is negative), and a call on a model it built raises
    nothing but the [RuntimeError] of [torch.stack]: the lookup
    [cloned_blocks[i]] never fails. *)
Theorem AnomalyTransformer_init_forward
    (num_layers : Z) (fresh fresh_clone : nat -> Block)
    (x : Tensor) (mask : option Mask) (arg : clone_arg) :
  length (anomaly_blocks (AnomalyTransformer_init num_layers fresh fresh_clone))
    = Z.to_nat num_layers /\
  length (cloned_blocks (AnomalyTransformer_init num_layers fresh fresh_clone))
    = Z.to_nat num_layers /\
  (forall e : exception,
     AnomalyTransformer_forward (AnomalyTransformer_init num_layers fresh fresh_clone)
       x mask arg = Raise e ->
     e = RuntimeError).
Proof.
  split; [apply ModuleList_of_range_length|].
  split; [apply ModuleList_of_range_length|].
  intros e; rewrite AnomalyTransformer_forward_unfold
    by (cbn [anomaly_blocks cloned_blocks AnomalyTransformer_init];
        now rewrite !ModuleList_of_range_length).
  set (os := map _ (call_layers _ arg)).
  set (cs := map _ (call_layers _ arg)).
  destruct (torch_stack os) as [origin|e1] eqn:Ho; cbn [bind].
  - destruct (torch_stack cs) as [cloned|e2] eqn:Hc; cbn [bind];
      [intros Hok; discriminate Hok|].
    intros [= <-]; exact (torch_stack_raises _ _ Hc).
  - intros [= <-]; exact (torch_stack_raises _ _ Ho).
Qed.





Lemma Anomaly_loop_same_members (cl : list Block) (mask : option Mask) (sel sel' : list Z) :
  (forall i, contains sel i = contains sel' i) ->
  forall (bs : list Block) (i : Z) (x : Tensor) (o c : list Tensor),
  Anomaly_loop i bs cl x mask sel o c = Anomaly_loop i bs cl x mask sel' o c.
Proof.
  intros Hsame; induction bs as [|block rest IH]; intros i x o c; [reflexivity|].
  cbn [Anomaly_loop]; rewrite Hsame.
  destruct (contains sel' i); [|apply IH].
  destruct (ModuleList_getitem cl i); cbn [bind]; [apply IH|reflexivity].
Qed.

(** X10. A collection given as [clone_block_ind] counts through its members
    only: two lists with the same members, in any order and with any
    repetitions, give the same result. *)
Theorem AnomalyTransformer_forward_same_members (self : AnomalyTransformer) (x : Tensor)
    (mask : option Mask) (ks ks' : list Z) :
  (forall i : Z, In i ks <-> In i ks') ->
  AnomalyTransformer_forward self x mask (CloneIndices ks)
    = AnomalyTransformer_forward self x mask (CloneIndices ks').
Proof.
  intros Hsame; unfold AnomalyTransformer_forward; cbn [normalize_clone_block_ind].
  rewrite (Anomaly_loop_same_members (cloned_blocks self) mask ks ks'); [reflexivity|].
  intros i; destruct (contains ks i) eqn:H1, (contains ks' i) eqn:H2; try reflexivity.
  - apply contains_In, Hsame, contains_In in H1; congruence.
  - apply contains_In, Hsame, contains_In in H2; congruence.
Qed.

(** X11. The two variants agree on one layer: for a layer [k] of a well-formed
    model, [AnomalyTransformer.forward] with the bare int [k] returns stacks of
    one slice each, and these two slices are the pair that
    [OlderAnomalyTransformer.forward] returns on the same blocks with clone
    index [k] and [cloned_blocks[k]] as its cloned block. *)
Theorem AnomalyTransformer_single_layer_is_Older (self : AnomalyTransformer) (x : Tensor)
    (mask : option Mask) (k : Z) :
  length (cloned_blocks self) = length (anomaly_blocks self) ->
  Forall preserves_size (anomaly_blocks self) ->
  Forall preserves_size (cloned_blocks self) ->
  0 <= k < Z.of_nat (length (anomaly_blocks self)) ->
  exists origin_out cloned_out : Tensor,
    OlderAnomalyTransformer_forward
      {| older_blocks := anomaly_blocks self;
         clone_block_ind := k;
         cloned_block := layer (cloned_blocks self) (Z.to_nat k) |} x mask (-1)
      = Ok (origin_out, cloned_out) /\
    AnomalyTransformer_forward self x mask (CloneInt k)
      = Ok ({| slices := [origin_out] |}, {| slices := [cloned_out] |}).
Proof.
  intros Hlen Hbs Hcl Hk.
  assert (Hcall : call_layers self (CloneInt k) = [Z.to_nat k]).
  { unfold call_layers; cbn [normalize_clone_block_ind].
    replace (k =? -1) with false by (symmetry; apply Z.eqb_neq; lia).
    rewrite <- (Z2Nat.id k) at 1 by lia.
    apply selected_layers_single; lia. }
  destruct (AnomalyTransformer_forward_selected self x mask (CloneInt k) Hlen Hbs Hcl)
    as (Hfwd & _); [rewrite Hcall; discriminate|].
  rewrite Hcall in Hfwd; cbn [map] in Hfwd.
  eexists; eexists; split; [|exact Hfwd].
  unfold OlderAnomalyTransformer_forward; cbn [older_blocks clone_block_ind cloned_block].
  rewrite Older_loop_clone_point by lia.
  rewrite Z.sub_0_r; cbn [snd].
  fold (pre_state (anomaly_blocks self) x mask (S (Z.to_nat k))).
  fold (pre_state (anomaly_blocks self) x mask (Z.to_nat k)).
  rewrite pre_state_step by lia.
  reflexivity.
Qed.

End Stacks.

(** *** The stacks on a concrete instance

    Integers stand for tensors, all of shape (2, 5, 8); a block is a function
    on them. *)

Definition toy_size (_ : Z) : list Z := [2; 5; 8].

Definition toy_block (k : nat) : Block Z unit := fun x _ => 2 * x + Z.of_nat k.

Definition toy_clone (k : nat) : Block Z unit := fun x _ => x - 7 * Z.of_nat k.

Definition toy_perturbed_clone (k : nat) : Block Z unit :=
  match k with
  | O => fun x _ => x * x + 10
  | _ => toy_clone k
  end.

Definition toy_transformer : Transformer Z unit :=
  Transformer_init Z unit 3 toy_block.

Definition toy_anomaly : AnomalyTransformer Z unit :=
  AnomalyTransformer_init Z unit 3 toy_block toy_clone.

Definition toy_perturbed_anomaly : AnomalyTransformer Z unit :=
  AnomalyTransformer_init Z unit 3 toy_block toy_perturbed_clone.

Definition toy_older (clone_block_ind : Z) : OlderAnomalyTransformer Z unit :=
  OlderAnomalyTransformer_init Z unit 3 toy_block clone_block_ind (toy_clone 1).

Lemma toy_preserves_size (b : Block Z unit) : preserves_size Z unit toy_size b.
Proof. intros x mask; reflexivity. Qed.

Lemma toy_all_preserve_size (bs : list (Block Z unit)) :
  Forall (preserves_size Z unit toy_size) bs.
Proof. apply Forall_forall; intros b _; apply toy_preserves_size. Qed.

Example toy_forward_full : Transformer_forward Z unit toy_transformer 1 None (-1) = 12.
Proof. reflexivity. Qed.

Example toy_forward_exit : Transformer_forward Z unit toy_transformer 1 None 1 = 5.
Proof. reflexivity. Qed.

Example toy_anomaly_all :
  AnomalyTransformer_forward Z unit toy_size toy_anomaly 1 None CloneNone
    = Ok ({| slices := [2; 5; 12] |}, {| slices := [1; -5; -9] |}).
Proof. reflexivity. Qed.

Example toy_anomaly_last :
  AnomalyTransformer_forward Z unit toy_size toy_anomaly 1 None (CloneInt (-1))
    = Ok ({| slices := [12] |}, {| slices := [-9] |}).
Proof. reflexivity. Qed.

Example toy_older_last :
  OlderAnomalyTransformer_forward Z unit (toy_older (-1)) 1 None (-1) = Ok (12, -2).
Proof. reflexivity. Qed.

Lemma Transformer_early_exit_equivalence_witness :
  nth_error (Transformer_activations Z unit toy_transformer 1 None (-1)) 1
    = Some (Transformer_forward Z unit toy_transformer 1 None 1) /\
  Transformer_forward Z unit toy_transformer 1 None 1 = 5.
Proof.
  split; [|reflexivity].
  apply (Transformer_early_exit_equivalence Z unit toy_transformer 1 None 1).
  vm_compute; split; [discriminate|reflexivity].
Defined.

(** C4 fails for the legacy variant: with three blocks and clone index 3 the
    call does not return. *)
Lemma Older_forward_beyond_last_layer_raises :
  OlderAnomalyTransformer_forward Z unit (toy_older 3) 1 None (-1)
    = Raise UnboundLocalError.
Proof. reflexivity. Qed.

Lemma index_beyond_last_layer_witness :
  Transformer_forward Z unit toy_transformer 1 None 3 = 12 /\
  OlderAnomalyTransformer_forward Z unit (toy_older 3) 1 None (-1)
    = Raise UnboundLocalError.
Proof.
  destruct (index_beyond_last_layer Z unit) as [Hplain Holder].
  split.
  - apply (Hplain toy_transformer 1 None 3); reflexivity.
  - apply (Holder (toy_older 3) 1 None (-1)); reflexivity.
Defined.

Lemma AnomalyTransformer_forward_pairs_witness :
  exists origin cloned : Stacked Z,
    AnomalyTransformer_forward Z unit toy_size toy_anomaly 1 None (CloneIndices [0; 2])
      = Ok (origin, cloned) /\
    slices Z origin = [2; 12] /\
    slices Z cloned = [1; -9] /\
    Stacked_size Z toy_size origin = [2; 2; 5; 8] /\
    Stacked_size Z toy_size cloned = [2; 2; 5; 8].
Proof.
  destruct (AnomalyTransformer_forward_pairs Z unit toy_size toy_anomaly 1 None
              (CloneIndices [0; 2]))
    as (origin & cloned & Hfwd & Ho & Hc & _ & Hso & Hsc).
  - reflexivity.
  - apply toy_all_preserve_size.
  - apply toy_all_preserve_size.
  - vm_compute; discriminate.
  - exists origin, cloned; repeat split; assumption.
Defined.

Example toy_perturbed_anomaly_all :
  AnomalyTransformer_forward Z unit toy_size toy_perturbed_anomaly 1 None CloneNone
    = Ok ({| slices := [2; 5; 12] |}, {| slices := [11; -5; -9] |}).
Proof. reflexivity. Qed.

Lemma cloned_blocks_never_influence_original_path_witness :
  match AnomalyTransformer_forward Z unit toy_size toy_anomaly 1 None CloneNone,
        AnomalyTransformer_forward Z unit toy_size toy_perturbed_anomaly 1 None CloneNone with
  | Ok (origin, cloned), Ok (origin', cloned') =>
      origin' = origin /\
      nth_error (slices Z cloned') 2 = nth_error (slices Z cloned) 2
  | _, _ => False
  end.
Proof.
  pose proof (cloned_blocks_never_influence_original_path Z unit toy_size
    toy_anomaly toy_perturbed_anomaly 1 None CloneNone eq_refl eq_refl eq_refl
    (toy_all_preserve_size _) (toy_all_preserve_size _) (toy_all_preserve_size _)) as H.
  rewrite toy_anomaly_all, toy_perturbed_anomaly_all in H |- *.
  destruct H as [Ho Hc]; split; [exact Ho|].
  apply (Hc 2%nat 2%nat); reflexivity.
Defined.

Lemma AnomalyTransformer_forward_empty_selection_witness :
  AnomalyTransformer_forward Z unit toy_size toy_anomaly 1 None (CloneIndices [-1; 3; 7])
    = Raise RuntimeError.
Proof.
  apply (AnomalyTransformer_forward_empty_selection Z unit toy_size toy_anomaly 1 None).
  intros k [<-|[<-|[<-|[]]]]; vm_compute; intuition discriminate.
Defined.



(** *** The further properties on the concrete instance *)

Lemma Transformer_forward_whole_stack_witness :
  Transformer_forward Z unit toy_transformer 1 None (-5) = 12 /\
  Transformer_forward Z unit toy_transformer 1 None 2 = 12.
Proof.
  split.
  - apply (Transformer_forward_whole_stack Z unit toy_transformer 1 None (-5)); left; lia.
  - apply (Transformer_forward_whole_stack Z unit toy_transformer 1 None 2); right;
      vm_compute; discriminate.
Defined.

Lemma Transformer_early_exit_ignores_later_blocks_witness :
  Transformer_forward Z unit toy_transformer 1 None 1
    = Transformer_forward Z unit (Transformer_init Z unit 2 toy_block) 1 None 1.
Proof.
  apply (Transformer_early_exit_ignores_later_blocks Z unit toy_transformer
           (Transformer_init Z unit 2 toy_block) 1 None 1).
  - vm_compute; split; [discriminate|reflexivity].
  - vm_compute; split; [discriminate|reflexivity].
  - reflexivity.
Defined.

Lemma Transformer_forward_size_witness :
  toy_size (Transformer_forward Z unit toy_transformer 1 None 1) = toy_size 1.
Proof.
  apply (Transformer_forward_size Z unit toy_size toy_transformer 1 None 1).
  apply toy_all_preserve_size.
Defined.

Lemma Transformer_forward_app_witness :
  Transformer_forward Z unit {| blocks := [toy_block 0] ++ [toy_block 1; toy_block 2] |}
    1 None 2
  = Transformer_forward Z unit {| blocks := [toy_block 1; toy_block 2] |}
      (Transformer_forward Z unit {| blocks := [toy_block 0] |} 1 None (-1)) None 1.
Proof.
  apply (proj2 (Transformer_forward_app Z unit [toy_block 0] [toy_block 1; toy_block 2]
                  1 None) 1).
  lia.
Defined.

Lemma Older_forward_at_clone_point_witness :
  OlderAnomalyTransformer_forward Z unit (toy_older 1) 1 None (-1)
    = Ok (Transformer_forward Z unit toy_transformer 1 None 1, toy_clone 1 2 None).
Proof.
  apply (Older_forward_at_clone_point Z unit (toy_older 1) 1 None (-1)).
  vm_compute; split; [discriminate|reflexivity].
Defined.

Lemma Older_forward_default_clone_point_witness :
  OlderAnomalyTransformer_forward Z unit (toy_older (-1)) 1 None (-1)
    = Ok (Transformer_forward Z unit toy_transformer 1 None (-1), toy_clone 1 5 None).
Proof.
  apply (Older_forward_default_clone_point Z unit 3 toy_block (toy_clone 1) 1 None (-1)).
  lia.
Defined.


Lemma AnomalyTransformer_forward_same_members_witness :
  AnomalyTransformer_forward Z unit toy_size toy_anomaly 1 None (CloneIndices [2; 0; 2])
    = AnomalyTransformer_forward Z unit toy_size toy_anomaly 1 None (CloneIndices [0; 2]).
Proof.
  apply (AnomalyTransformer_forward_same_members Z unit toy_size toy_anomaly 1 None
           [2; 0; 2] [0; 2]).
  intros i; cbn [In]; intuition auto.
Defined.

Lemma AnomalyTransformer_single_layer_is_Older_witness :
  exists origin_out cloned_out : Z,
    OlderAnomalyTransformer_forward Z unit
      {| older_blocks := anomaly_blocks Z unit toy_anomaly;
         clone_block_ind := 1;
         cloned_block := layer Z unit (cloned_blocks Z unit toy_anomaly) 1 |} 1 None (-1)
      = Ok (origin_out, cloned_out) /\
    AnomalyTransformer_forward Z unit toy_size toy_anomaly 1 None (CloneInt 1)
      = Ok ({| slices := [origin_out] |}, {| slices := [cloned_out] |}).
Proof.
  apply (AnomalyTransformer_single_layer_is_Older Z unit toy_size toy_anomaly 1 None 1).
  - reflexivity.
  - apply toy_all_preserve_size.
  - apply toy_all_preserve_size.
  - vm_compute; split; [discriminate|reflexivity].
Defined.

End Encoder.

(** ** The shape helpers *)

Module Reshaper.

(** Products of dimensions: [np.prod] of a shape, the number of elements of a
    size. *)
Definition prod (dims : list Z) : Z := fold_right Z.mul 1 dims.

(** [l.count(a)], [a in l], [l.index(a)] and [l[k] = v] on Python lists. *)
Definition count (a : Z) (l : list Z) : Z := Z.of_nat (count_occ Z.eq_dec l a).

Definition contains (l : list Z) (a : Z) : bool := existsb (Z.eqb a) l.

Fixpoint index (a : Z) (l : list Z) : nat :=
  match l with
  | [] => O
  | b :: rest => if b =? a then O else S (index a rest)
  end.

Fixpoint set_item (l : list Z) (k : nat) (v : Z) : list Z :=
  match l, k with
  | [], _ => []
  | _ :: rest, O => v :: rest
  | b :: rest, S k => b :: set_item rest k v
  end.

(** [int(a / b)] for a Python int [a] and a NumPy integer [b]: the float
    quotient, truncated.  A zero divisor gives an infinity or a NaN, which
    [int] refuses.  The float quotient of two integers below 2^53 truncates to
    their integer quotient, and the sizes of a tensor are far below that. *)
Definition int_true_div (a b : Z) : result Z :=
  if b =? 0 then Raise (if a =? 0 then ValueError else OverflowError)
  else Ok (Z.quot a b).

(** Row-major index arithmetic over a size. *)
Definition volume (s : list nat) : nat := fold_right Nat.mul 1%nat s.

Fixpoint ravel (s idx : list nat) : nat :=
  match s, idx with
  | _ :: s', i :: idx' => (i * volume s' + ravel s' idx')%nat
  | _, _ => O
  end.

Fixpoint unravel (s : list nat) (n : nat) : list nat :=
  match s with
  | [] => []
  | _ :: s' => (n / volume s')%nat :: unravel s' (n mod volume s')%nat
  end.

(** The transposition of positions [i] and [j], and the list [l] with these
    two positions exchanged. *)
Definition exchange (i j k : nat) : nat :=
  if (k =? i)%nat then j else if (k =? j)%nat then i else k.

Definition swap {X : Type} (d : X) (i j : nat) (l : list X) : list X :=
  map (fun k => nth (exchange i j k) l d) (seq 0 (length l)).

(** An index within a size. *)
Definition within (s idx : list nat) : Prop := Forall2 (fun d i => (i < d)%nat) s idx.

Section Tensors.

(** The elements of a tensor are of any type. *)
Variable A : Type.

(** A tensor as a value: its size and its elements in row-major order, which
    is what [view], [transpose] and [torch.equal] observe of it. *)
Record Tensor : Type := { size : list Z; elements : list A }.

(** A tensor holds as many elements as its size says, in dimensions that are
    not negative. *)
Definition well_formed (x : Tensor) : Prop :=
  Forall (fun d => 0 <= d) (size x) /\ Z.of_nat (length (elements x)) = prod (size x).

Definition numel (x : Tensor) : Z := prod (size x).

(** [x.size(-1)]. *)
Definition size_last (x : Tensor) : result Z :=
  match size x with
  | [] => Raise IndexError
  | d :: rest => Ok (last rest d)
  end.

(** [x.view] on the dimensions [shape]: at most one dimension is [-1] and is inferred, no other
    is negative, and the number of elements is kept; the elements stay in
    their order. *)
Definition view (x : Tensor) (shape : list Z) : result Tensor :=
  if existsb (fun d => d <? -1) shape then Raise RuntimeError
  else if 1 <? count (-1) shape then Raise RuntimeError
  else if contains shape (-1) then
    let newsize := prod (filter (fun d => 0 <=? d) shape) in
    if (0 <? newsize) && (numel x mod newsize =? 0) then
      Ok {| size := set_item shape (index (-1) shape) (numel x / newsize);
            elements := elements x |}
    else Raise RuntimeError
  else
    if prod shape =? numel x then Ok {| size := shape; elements := elements x |}
    else Raise RuntimeError.

(** A dimension argument, wrapped: [-rank .. rank - 1] (a tensor of rank 0
    takes [-1] and [0]). *)
Definition wrap_dim (rank : nat) (dim : Z) : result nat :=
  let r := Z.max (Z.of_nat rank) 1 in
  if (- r <=? dim) && (dim <? r) then Ok (Z.to_nat (if dim <? 0 then dim + r else dim))
  else Raise IndexError.

(** The elements of the transposed tensor: the one at index [idx] of the
    result is the one at the swapped index of the source. *)
Definition transpose_elements (s : list nat) (i j : nat) (els : list A) : list A :=
  match els with
  | [] => []
  | a :: _ =>
      map (fun n => nth (ravel s (swap O i j (unravel (swap O i j s) n))) els a)
          (seq 0 (length els))
  end.

(** [x.transpose(dim0, dim1)]. *)
Definition transpose (x : Tensor) (dim0 dim1 : Z) : result Tensor :=
  i <- wrap_dim (length (size x)) dim0 ;;
  j <- wrap_dim (length (size x)) dim1 ;;
  Ok {| size := swap 0 i j (size x);
        elements := transpose_elements (map Z.to_nat (size x)) i j (elements x) |}.

(** [split_last(x, shape)]. *)
Definition split_last (x : Tensor) (shape : list Z) : result Tensor :=
  if count (-1) shape <=? 1 then
    shape <- (if contains shape (-1) then
                d <- size_last x ;;
                v <- int_true_div d (- prod shape) ;;
                Ok (set_item shape (index (-1) shape) v)
              else Ok shape) ;;
    view x (removelast (size x) ++ shape)
  else Raise AssertionError.

(** [merge_last(x, n_dims)]. *)
Definition merge_last (x : Tensor) (n_dims : Z) : result Tensor :=
  let s := size x in
  if (1 <? n_dims) && (n_dims <? Z.of_nat (length s)) then
    view x (firstn (length s - Z.to_nat n_dims) s ++ [-1])
  else Raise AssertionError.

(** Splitting the last dimension into [H] heads, transposing and undoing the
    transposition, and merging the last two dimensions. *)
Definition split_transpose_merge (x : Tensor) (H dim0 dim1 : Z) : result Tensor :=
  h <- split_last x [H; -1] ;;
  h <- transpose h dim0 dim1 ;;
  h <- transpose h dim0 dim1 ;;
  merge_last h 2.

(** The head split of [MultiHeadedSelfAttention.forward]:
    [split_last(x, (n_heads, -1)).transpose(1, 2)]. *)
Definition split_heads (x : Tensor) (n_heads : Z) : result Tensor :=
  h <- split_last x [n_heads; -1] ;;
  transpose h 1 2.

(** Its head merge: [merge_last(h.transpose(1, 2).contiguous(), 2)], where
    [contiguous] copies the tensor and keeps its value. *)
Definition merge_heads (h : Tensor) : result Tensor :=
  h <- transpose h 1 2 ;;
  merge_last h 2.

End Tensors.

Arguments size {A} t.
Arguments elements {A} t.

Example split_last_heads :
  split_last Z {| size := [1; 2; 4]; elements := [0; 1; 2; 3; 4; 5; 6; 7] |} [2; -1]
    = Ok {| size := [1; 2; 2; 2]; elements := [0; 1; 2; 3; 4; 5; 6; 7] |}.
Proof. reflexivity. Qed.

Example transpose_heads :
  transpose Z {| size := [1; 2; 2; 2]; elements := [0; 1; 2; 3; 4; 5; 6; 7] |} 1 2
    = Ok {| size := [1; 2; 2; 2]; elements := [0; 1; 4; 5; 2; 3; 6; 7] |}.
Proof. reflexivity. Qed.

Example transpose_matrix :
  transpose Z {| size := [2; 3]; elements := [0; 1; 2; 3; 4; 5] |} (-2) (-1)
    = Ok {| size := [3; 2]; elements := [0; 3; 1; 4; 2; 5] |}.
Proof. reflexivity. Qed.

Example merge_last_heads :
  merge_last Z {| size := [1; 2; 2; 2]; elements := [0; 1; 2; 3; 4; 5; 6; 7] |} 2
    = Ok {| size := [1; 2; 4]; elements := [0; 1; 2; 3; 4; 5; 6; 7] |}.
Proof. reflexivity. Qed.

Example split_last_indivisible :
  split_last Z {| size := [2; 3]; elements := [0; 1; 2; 3; 4; 5] |} [2; -1]
    = Raise RuntimeError.
Proof. reflexivity. Qed.


(** *** Python list operations on a shape *)

Lemma prod_app (l1 l2 : list Z) : prod (l1 ++ l2) = prod l1 * prod l2.
Proof.
  induction l1 as [|d l1 IH]; cbn [app prod fold_right].
  - fold (prod l2); lia.
  - fold (prod (l1 ++ l2)) (prod l1); rewrite IH; lia.
Qed.

Lemma prod_cons (d : Z) (l : list Z) : prod (d :: l) = d * prod l.
Proof. reflexivity. Qed.

Lemma prod_nonneg (l : list Z) : Forall (fun d => 0 <= d) l -> 0 <= prod l.
Proof.
  induction 1 as [|d l Hd _ IH]; [cbn; lia|].
  rewrite prod_cons; lia.
Qed.

Lemma prod_pos (l : list Z) : Forall (fun d => 0 < d) l -> 0 < prod l.
Proof.
  induction 1 as [|d l Hd _ IH]; [cbn; lia|].
  rewrite prod_cons; lia.
Qed.

Lemma positive_nonneg (l : list Z) :
  Forall (fun d => 0 < d) l -> Forall (fun d => 0 <= d) l.
Proof. apply Forall_impl; intros d; lia. Qed.

(** A shape without negative entries has no wildcard, and [view] accepts its
    entries. *)
Lemma nonneg_shape (l : list Z) :
  Forall (fun d => 0 <= d) l ->
  existsb (fun d => d <? -1) l = false /\ contains l (-1) = false /\
  count (-1) l = 0 /\ filter (fun d => 0 <=? d) l = l.
Proof.
  unfold count, contains.
  induction 1 as [|d l Hd _ (IH1 & IH2 & IH3 & IH4)]; [now repeat split|].
  cbn [existsb count_occ filter].
  destruct (Z.eq_dec d (-1)) as [Heq|_]; [lia|].
  replace (d <? -1) with false by (symmetry; apply Z.ltb_ge; lia).
  replace (-1 =? d) with false by (symmetry; apply Z.eqb_neq; lia).
  replace (0 <=? d) with true by (symmetry; apply Z.leb_le; lia).
  cbn [orb]; rewrite IH4; now repeat split.
Qed.

(** A shape whose only negative entry is one wildcard. *)
Lemma wildcard_shape (pre post : list Z) :
  Forall (fun d => 0 <= d) (pre ++ post) ->
  existsb (fun d => d <? -1) (pre ++ -1 :: post) = false /\
  contains (pre ++ -1 :: post) (-1) = true /\
  count (-1) (pre ++ -1 :: post) = 1 /\
  index (-1) (pre ++ -1 :: post) = length pre /\
  filter (fun d => 0 <=? d) (pre ++ -1 :: post) = pre ++ post /\
  prod (pre ++ -1 :: post) = - prod (pre ++ post).
Proof.
  intros Hall; apply Forall_app in Hall as [Hpre Hpost].
  destruct (nonneg_shape post Hpost) as (Hp1 & Hp2 & Hp3 & Hp4).
  unfold count, contains in *.
  induction Hpre as [|d pre Hd _ (IH1 & IH2 & IH3 & IH4 & IH5 & IH6)].
  - cbn [app existsb count_occ index filter length].
    destruct (Z.eq_dec (-1) (-1)) as [_|Hne]; [|congruence].
    rewrite Hp1, Hp4, prod_cons; cbn [Z.ltb Z.eqb Z.leb Z.compare Pos.eqb orb Z.opp].
    repeat split; lia.
  - cbn [app existsb count_occ index filter length].
    destruct (Z.eq_dec d (-1)) as [Heq|_]; [lia|].
    replace (d <? -1) with false by (symmetry; apply Z.ltb_ge; lia).
    replace (d =? -1) with false by (symmetry; apply Z.eqb_neq; lia).
    replace (-1 =? d) with false by (symmetry; apply Z.eqb_neq; lia).
    replace (0 <=? d) with true by (symmetry; apply Z.leb_le; lia).
    cbn [orb]; rewrite IH1, IH2, IH4, IH5, !prod_cons, IH6.
    repeat split; [exact IH3|lia].
Qed.

Lemma set_item_middle (pre post : list Z) (a v : Z) :
  set_item (pre ++ a :: post) (length pre) v = pre ++ v :: post.
Proof. induction pre as [|d pre IH]; cbn; [reflexivity|now rewrite IH]. Qed.

(** *** [split_last] *)

Section SplitLast.

Variable A : Type.

Lemma size_last_app (x : Tensor A) (lead : list Z) (D : Z) :
  size x = lead ++ [D] -> size_last A x = Ok D.
Proof.
  unfold size_last; intros ->.
  destruct lead as [|d lead]; [reflexivity|].
  cbn [app]; now rewrite last_last.
Qed.

Lemma numel_app (x : Tensor A) (lead : list Z) (D : Z) :
  size x = lead ++ [D] -> numel A x = prod lead * D.
Proof. unfold numel; intros ->; rewrite prod_app, prod_cons; cbn; lia. Qed.

Lemma size_nonneg (x : Tensor A) (lead : list Z) (D : Z) :
  well_formed A x -> size x = lead ++ [D] ->
  Forall (fun d => 0 <= d) lead /\ 0 <= D.
Proof.
  intros [Hnn _] Hsize; rewrite Hsize in Hnn.
  apply Forall_app in Hnn as [Hlead HD]; split; [exact Hlead|].
  now inversion HD.
Qed.

(** [view] on a shape without negative entries. *)
Lemma view_explicit (x : Tensor A) (shape : list Z) :
  Forall (fun d => 0 <= d) shape ->
  view A x shape =
    if prod shape =? numel A x then Ok {| size := shape; elements := elements x |}
    else Raise RuntimeError.
Proof.
  intros Hnn; destruct (nonneg_shape shape Hnn) as (H1 & H2 & H3 & _).
  unfold view; now rewrite H1, H2, H3.
Qed.

(** The shape that [split_last] hands to [view] when there is a wildcard. *)
Lemma split_last_wildcard (x : Tensor A) (lead pre post : list Z) (D : Z) :
  well_formed A x -> size x = lead ++ [D] ->
  Forall (fun d => 0 <= d) (pre ++ post) -> 0 < prod (pre ++ post) ->
  split_last A x (pre ++ -1 :: post)
    = view A x (lead ++ pre ++ D / prod (pre ++ post) :: post).
Proof.
  intros Hwf Hsize Hnn Hpos.
  destruct (size_nonneg x lead D Hwf Hsize) as [_ HD].
  destruct (wildcard_shape pre post Hnn) as (_ & W2 & W3 & W4 & _ & W6).
  unfold split_last; rewrite W3, W2, (size_last_app x lead D Hsize), W6, W4.
  cbn [Z.leb Z.compare Pos.compare Pos.compare_cont bind].
  rewrite Z.opp_involutive; unfold int_true_div.
  replace (prod (pre ++ post) =? 0) with false by (symmetry; apply Z.eqb_neq; lia).
  cbn [bind]; rewrite set_item_middle, Hsize, removelast_last.
  now rewrite Z.quot_div_nonneg by lia.
Qed.

Lemma split_last_wildcard_divisible (x : Tensor A) (lead pre post : list Z) (D : Z) :
  well_formed A x -> size x = lead ++ [D] ->
  Forall (fun d => 0 < d) (pre ++ post) -> (prod (pre ++ post) | D) ->
  split_last A x (pre ++ -1 :: post)
    = Ok {| size := lead ++ pre ++ D / prod (pre ++ post) :: post;
            elements := elements x |}.
Proof.
  intros Hwf Hsize Hpos [k Hk].
  pose proof (prod_pos _ Hpos) as HP.
  destruct (size_nonneg x lead D Hwf Hsize) as [Hlead HD].
  rewrite (split_last_wildcard x lead pre post D Hwf Hsize (positive_nonneg _ Hpos) HP).
  apply positive_nonneg, Forall_app in Hpos as [Hpre Hpost].
  assert (Hq : D / prod (pre ++ post) = k) by (subst D; apply Z.div_mul; lia).
  rewrite view_explicit.
  - replace (prod (lead ++ pre ++ D / prod (pre ++ post) :: post)) with (numel A x);
      [now rewrite Z.eqb_refl|].
    rewrite (numel_app x lead D Hsize), Hq, !prod_app, prod_cons, Hk, prod_app; ring.
  - apply Forall_app; split; [exact Hlead|].
    apply Forall_app; split; [exact Hpre|].
    constructor; [|exact Hpost].
    rewrite Hq; nia.
Qed.




End SplitLast.

(** *** Row-major indices *)

Section Indices.

Local Open Scope nat_scope.

Lemma volume_cons (d : nat) (s : list nat) : volume (d :: s) = d * volume s.
Proof. reflexivity. Qed.

Lemma length_unravel (s : list nat) : forall n, length (unravel s n) = length s.
Proof. induction s as [|d s IH]; intros n; cbn; [reflexivity|now rewrite IH]. Qed.

Lemma ravel_lt (s idx : list nat) : within s idx -> ravel s idx < volume s.
Proof.
  induction 1 as [|d i s idx Hi _ IH]; [cbn; lia|].
  cbn [ravel]; rewrite volume_cons; nia.
Qed.

Lemma unravel_within (s : list nat) : forall n, n < volume s -> within s (unravel s n).
Proof.
  induction s as [|d s IH]; intros n Hn; [constructor|].
  rewrite volume_cons in Hn; cbn [unravel].
  assert (Hv : volume s <> 0) by nia.
  constructor.
  - apply Nat.Div0.div_lt_upper_bound; lia.
  - apply IH, Nat.mod_upper_bound, Hv.
Qed.

Lemma unravel_ravel (s idx : list nat) : within s idx -> unravel s (ravel s idx) = idx.
Proof.
  induction 1 as [|d i s idx Hi Hrest IH]; [reflexivity|].
  pose proof (ravel_lt s idx Hrest) as Hr.
  cbn [ravel unravel].
  rewrite Nat.div_add_l, Nat.div_small, Nat.add_0_r by lia.
  rewrite Nat.add_comm, Nat.Div0.mod_add, Nat.mod_small by lia.
  now rewrite IH.
Qed.

Lemma ravel_unravel (s : list nat) : forall n, n < volume s -> ravel s (unravel s n) = n.
Proof.
  induction s as [|d s IH]; intros n Hn; [cbn in *; lia|].
  rewrite volume_cons in Hn; cbn [unravel ravel].
  assert (Hv : volume s <> 0) by nia.
  rewrite IH by (apply Nat.mod_upper_bound, Hv).
  pose proof (Nat.div_mod_eq n (volume s)); lia.
Qed.

(** *** Exchanging two positions of a list *)

Lemma exchange_lt (i j k n : nat) : i < n -> j < n -> k < n -> exchange i j k < n.
Proof.
  intros Hi Hj Hk; unfold exchange.
  destruct (Nat.eqb_spec k i); [exact Hj|].
  destruct (Nat.eqb_spec k j); [exact Hi|exact Hk].
Qed.

Lemma exchange_involutive (i j k : nat) : exchange i j (exchange i j k) = k.
Proof.
  unfold exchange.
  destruct (Nat.eqb_spec k i) as [->|Hki].
  - destruct (Nat.eqb_spec j i) as [->|Hji]; [reflexivity|].
    now rewrite Nat.eqb_refl.
  - destruct (Nat.eqb_spec k j) as [->|Hkj]; [now rewrite Nat.eqb_refl|].
    destruct (Nat.eqb_spec k i); [contradiction|].
    destruct (Nat.eqb_spec k j); [contradiction|reflexivity].
Qed.

Lemma nth_map_seq {X : Type} (f : nat -> X) (len n : nat) (d : X) :
  n < len -> nth n (map f (seq 0 len)) d = f n.
Proof.
  intros Hn.
  rewrite (nth_indep _ d (f 0)) by (rewrite length_map, length_seq; exact Hn).
  now rewrite map_nth, seq_nth.
Qed.

Lemma length_swap {X : Type} (d : X) (i j : nat) (l : list X) :
  length (swap d i j l) = length l.
Proof. unfold swap; now rewrite length_map, length_seq. Qed.

Lemma nth_swap {X : Type} (d d' : X) (i j k : nat) (l : list X) :
  k < length l -> nth k (swap d i j l) d' = nth (exchange i j k) l d.
Proof. intros Hk; unfold swap; now rewrite nth_map_seq. Qed.

Lemma swap_involutive {X : Type} (d : X) (i j : nat) (l : list X) :
  i < length l -> j < length l -> swap d i j (swap d i j l) = l.
Proof.
  intros Hi Hj; apply (nth_ext _ _ d d).
  - now rewrite !length_swap.
  - intros k Hk; rewrite !length_swap in Hk.
    rewrite nth_swap by (rewrite length_swap; exact Hk).
    rewrite nth_swap by (apply exchange_lt; assumption).
    now rewrite exchange_involutive.
Qed.

Lemma map_swap {X Y : Type} (f : X -> Y) (d : X) (i j : nat) (l : list X) :
  map f (swap d i j l) = swap (f d) i j (map f l).
Proof.
  unfold swap; rewrite map_map, length_map.
  apply map_ext; intros k; now rewrite map_nth.
Qed.

Lemma Forall2_pointwise {X Y : Type} (R : X -> Y -> Prop) (dx : X) (dy : Y) :
  forall (l : list X) (l' : list Y),
  Forall2 R l l' <->
  length l = length l' /\ forall k, k < length l -> R (nth k l dx) (nth k l' dy).
Proof.
  induction l as [|a l IH]; intros [|b l']; split.
  - intros _; split; [reflexivity|cbn; lia].
  - constructor.
  - inversion 1.
  - intros [Hlen _]; discriminate.
  - inversion 1.
  - intros [Hlen _]; discriminate.
  - inversion 1 as [|? ? ? ? Hab Hrest]; subst.
    apply IH in Hrest as [Hlen Hnth]; split; [cbn; now rewrite Hlen|].
    intros [|k] Hk; [exact Hab|apply Hnth; cbn in Hk; lia].
  - intros [Hlen Hnth]; constructor.
    + apply (Hnth 0); cbn; lia.
    + apply IH; split; [now injection Hlen|].
      intros k Hk; apply (Hnth (S k)); cbn; lia.
Qed.

Lemma swap_Forall2 {X Y : Type} (R : X -> Y -> Prop) (dx : X) (dy : Y) (i j : nat)
    (l : list X) (l' : list Y) :
  i < length l -> j < length l ->
  Forall2 R l l' -> Forall2 R (swap dx i j l) (swap dy i j l').
Proof.
  intros Hi Hj Hall.
  apply (Forall2_pointwise R dx dy) in Hall as [Hlen Hnth].
  apply (Forall2_pointwise R dx dy); rewrite !length_swap; split; [exact Hlen|].
  intros k Hk.
  rewrite !nth_swap by congruence.
  apply Hnth, exchange_lt; assumption.
Qed.

Lemma swap_Permutation {X : Type} (d : X) (i j : nat) (l : list X) :
  i < length l -> j < length l -> Permutation l (swap d i j l).
Proof.
  intros Hi Hj; apply (Permutation_nth l (swap d i j l) d); cbv zeta.
  split; [apply length_swap|].
  exists (exchange i j); split; [|split].
  - intros k Hk; apply exchange_lt; assumption.
  - intros k k' _ _ Heq.
    rewrite <- (exchange_involutive i j k), Heq; apply exchange_involutive.
  - intros k Hk; now apply nth_swap.
Qed.

Lemma volume_Permutation (s s' : list nat) : Permutation s s' -> volume s = volume s'.
Proof.
  induction 1 as [|d s s' _ IH|d d' s|s s' s'' _ IH1 _ IH2].
  - reflexivity.
  - now rewrite !volume_cons, IH.
  - rewrite !volume_cons; lia.
  - now rewrite IH1.
Qed.

Lemma volume_swap (i j : nat) (s : list nat) :
  i < length s -> j < length s -> volume (swap 0 i j s) = volume s.
Proof.
  intros Hi Hj; symmetry; apply volume_Permutation, swap_Permutation; assumption.
Qed.

End Indices.

(** *** [transpose] and [merge_last] *)

Section RoundTrip.

Variable A : Type.

Lemma volume_to_nat (s : list Z) :
  Forall (fun d => 0 <= d) s -> Z.of_nat (volume (map Z.to_nat s)) = prod s.
Proof.
  induction 1 as [|d s Hd _ IH]; [reflexivity|].
  cbn [map]; rewrite volume_cons, prod_cons, Nat2Z.inj_mul, IH; lia.
Qed.

Lemma well_formed_length (x : Tensor A) :
  well_formed A x -> length (elements x) = volume (map Z.to_nat (size x)).
Proof.
  intros [Hnn Hlen]; apply Nat2Z.inj; now rewrite Hlen, volume_to_nat.
Qed.

(** The index the transposed tensor reads at position [n] is within the
    source. *)
Lemma swapped_index_within (s : list nat) (i j n : nat) :
  (i < length s)%nat -> (j < length s)%nat -> (n < volume s)%nat ->
  within s (swap O i j (unravel (swap O i j s) n)).
Proof.
  intros Hi Hj Hn.
  rewrite <- (swap_involutive O i j s Hi Hj) at 1.
  apply swap_Forall2; try (rewrite length_swap; assumption).
  apply unravel_within; now rewrite volume_swap.
Qed.

Lemma length_transpose_elements (s : list nat) (i j : nat) (els : list A) :
  length (transpose_elements A s i j els) = length els.
Proof.
  unfold transpose_elements; destruct els as [|a els]; [reflexivity|].
  now rewrite length_map, length_seq.
Qed.

Lemma nth_transpose_elements (s : list nat) (i j n : nat) (els : list A) (d d' : A) :
  length els = volume s -> (i < length s)%nat -> (j < length s)%nat ->
  (n < length els)%nat ->
  nth n (transpose_elements A s i j els) d
    = nth (ravel s (swap O i j (unravel (swap O i j s) n))) els d'.
Proof.
  intros Hlen Hi Hj Hn; unfold transpose_elements.
  destruct els as [|a els]; [cbn in Hn; lia|].
  rewrite nth_map_seq by exact Hn.
  apply nth_indep; rewrite Hlen.
  apply ravel_lt, swapped_index_within; congruence.
Qed.

(** Transposing the elements twice gives them back. *)
Lemma transpose_elements_involutive (s : list nat) (i j : nat) (els : list A) :
  length els = volume s -> (i < length s)%nat -> (j < length s)%nat ->
  transpose_elements A (swap O i j s) i j (transpose_elements A s i j els) = els.
Proof.
  intros Hlen Hi Hj.
  destruct els as [|a els0] eqn:Hels; [reflexivity|rewrite <- Hels in *].
  assert (Hlen' : length (transpose_elements A s i j els) = volume (swap O i j s))
    by (rewrite length_transpose_elements, volume_swap; assumption).
  apply (nth_ext _ _ a a).
  - now rewrite !length_transpose_elements.
  - intros n Hn; rewrite !length_transpose_elements in Hn.
    rewrite (nth_transpose_elements _ i j n _ a a); try assumption;
      try (rewrite length_swap; assumption);
      try (rewrite length_transpose_elements; exact Hn).
    rewrite (swap_involutive O i j s Hi Hj).
    assert (Hin : within s (unravel s n)) by (apply unravel_within; congruence).
    assert (Hin' : within (swap O i j s) (swap O i j (unravel s n)))
      by (apply swap_Forall2; assumption).
    rewrite (nth_transpose_elements s i j _ els a a); try assumption.
    + rewrite (unravel_ravel _ _ Hin').
      rewrite swap_involutive by (rewrite length_unravel; assumption).
      rewrite ravel_unravel by congruence.
      reflexivity.
    + rewrite Hlen, <- (volume_swap i j s Hi Hj); apply ravel_lt, Hin'.
Qed.

Lemma wrap_dim_lt (rank : nat) (dim : Z) (i : nat) :
  (0 < rank)%nat -> wrap_dim rank dim = Ok i -> (i < rank)%nat.
Proof.
  unfold wrap_dim; intros Hrank.
  destruct ((- Z.max (Z.of_nat rank) 1 <=? dim) && (dim <? Z.max (Z.of_nat rank) 1))
    eqn:Hrange; [|discriminate].
  apply andb_true_iff in Hrange as [Hlo Hhi].
  apply Z.leb_le in Hlo; apply Z.ltb_lt in Hhi.
  intros [= <-].
  destruct (Z.ltb_spec dim 0); lia.
Qed.

Lemma wrap_dim_in_range (rank : nat) (dim : Z) :
  - Z.of_nat rank <= dim < Z.of_nat rank -> exists i, wrap_dim rank dim = Ok i.
Proof.
  intros Hdim; unfold wrap_dim.
  replace (Z.max (Z.of_nat rank) 1) with (Z.of_nat rank) by lia.
  replace (- Z.of_nat rank <=? dim) with true by (symmetry; apply Z.leb_le; lia).
  replace (dim <? Z.of_nat rank) with true by (symmetry; apply Z.ltb_lt; lia).
  eexists; reflexivity.
Qed.

Lemma bind_assoc {X Y W : Type} (r : result X) (f : X -> result Y) (g : Y -> result W) :
  bind (bind r f) g = bind r (fun a => bind (f a) g).
Proof. destruct r; reflexivity. Qed.

(** Transposing twice along the same two dimensions gives the tensor back. *)
Lemma transpose_twice (x : Tensor A) (dim0 dim1 : Z) :
  well_formed A x ->
  - Z.of_nat (length (size x)) <= dim0 < Z.of_nat (length (size x)) ->
  - Z.of_nat (length (size x)) <= dim1 < Z.of_nat (length (size x)) ->
  (h <- transpose A x dim0 dim1 ;; transpose A h dim0 dim1) = Ok x.
Proof.
  intros Hwf Hdim0 Hdim1.
  assert (Hrank : (0 < length (size x))%nat) by lia.
  destruct (wrap_dim_in_range _ _ Hdim0) as [i Hi].
  destruct (wrap_dim_in_range _ _ Hdim1) as [j Hj].
  pose proof (wrap_dim_lt _ _ _ Hrank Hi) as Hilt.
  pose proof (wrap_dim_lt _ _ _ Hrank Hj) as Hjlt.
  unfold transpose; rewrite Hi, Hj; cbn [bind size elements].
  rewrite length_swap, Hi, Hj; cbn [bind].
  rewrite (swap_involutive 0 i j (size x) Hilt Hjlt).
  rewrite (map_swap Z.to_nat 0 i j (size x)).
  change (Z.to_nat 0) with O.
  rewrite transpose_elements_involutive.
  - now destruct x.
  - apply well_formed_length, Hwf.
  - now rewrite length_map.
  - now rewrite length_map.
Qed.

(** [view] on a shape with one wildcard among dimensions that are not
    negative. *)
Lemma view_wildcard (x : Tensor A) (pre post : list Z) :
  Forall (fun d => 0 <= d) (pre ++ post) ->
  view A x (pre ++ -1 :: post) =
    if (0 <? prod (pre ++ post)) && (numel A x mod prod (pre ++ post) =? 0) then
      Ok {| size := pre ++ numel A x / prod (pre ++ post) :: post;
            elements := elements x |}
    else Raise RuntimeError.
Proof.
  intros Hnn.
  destruct (wildcard_shape pre post Hnn) as (W1 & W2 & W3 & W4 & W5 & _).
  unfold view; rewrite W1, W2, W3, W4, W5, set_item_middle.
  reflexivity.
Qed.

Lemma merge_last_two (x : Tensor A) (lead : list Z) (a b : Z) :
  size x = lead ++ [a; b] -> lead <> [] ->
  merge_last A x 2 = view A x (lead ++ [-1]).
Proof.
  intros Hsize Hlead; unfold merge_last; rewrite Hsize, length_app; cbn [length].
  assert (0 < length lead)%nat by (destruct lead; [congruence|cbn; lia]).
  replace (2 <? Z.of_nat (length lead + 2)) with true by (symmetry; apply Z.ltb_lt; lia).
  cbn [Z.ltb Z.compare Pos.compare Pos.compare_cont andb].
  replace (length lead + 2 - Z.to_nat 2)%nat with (length lead + 0)%nat by lia.
  now rewrite firstn_app_2, firstn_O, app_nil_r.
Qed.

(** C7, as the code has it. For a tensor [x] of rank at least 2 whose leading
    dimensions are not zero, and a positive head count [H] that divides its
    last dimension, splitting the last dimension into [(H, -1)], transposing
    two dimensions, transposing them back and merging the last two dimensions
    returns [x]. *)
Theorem split_merge_round_trip (x : Tensor A) (lead : list Z) (D H dim0 dim1 : Z) :
  well_formed A x -> size x = lead ++ [D] ->
  lead <> [] -> Forall (fun d => 0 < d) lead ->
  0 < H -> (H | D) ->
  - (Z.of_nat (length lead) + 2) <= dim0 < Z.of_nat (length lead) + 2 ->
  - (Z.of_nat (length lead) + 2) <= dim1 < Z.of_nat (length lead) + 2 ->
  split_transpose_merge A x H dim0 dim1 = Ok x.
Proof.
  intros Hwf Hsize Hlead Hpos HH Hdiv Hdim0 Hdim1.
  destruct (size_nonneg A x lead D Hwf Hsize) as [_ HD].
  pose proof (prod_pos lead Hpos) as Hplead.
  assert (HHD : H * (D / H) = D)
    by (destruct Hdiv as [k ->]; rewrite Z.div_mul by lia; ring).
  set (h := {| size := lead ++ [H; D / H]; elements := elements x |}).
  assert (Hsplit : split_last A x [H; -1] = Ok h).
  { change [H; -1] with ([H] ++ -1 :: []).
    rewrite (split_last_wildcard_divisible A x lead [H] [] D Hwf Hsize).
    - cbn [app prod fold_right]; now rewrite Z.mul_1_r.
    - repeat constructor; exact HH.
    - cbn [app prod fold_right]; now rewrite Z.mul_1_r. }
  assert (Hnumel : numel A h = prod lead * D).
  { unfold numel, h; cbn [size]; rewrite prod_app, !prod_cons; cbn [prod fold_right].
    rewrite <- HHD at 2; ring. }
  assert (Hwfh : well_formed A h).
  { split.
    - cbn [size h]; apply Forall_app; split; [apply positive_nonneg, Hpos|].
      repeat constructor; [lia|apply Z.div_pos; lia].
    - fold (numel A h); rewrite Hnumel; cbn [elements h].
      destruct Hwf as [_ ->]; apply (numel_app A x lead D Hsize). }
  assert (Hrank : Z.of_nat (length (size h)) = Z.of_nat (length lead) + 2)
    by (cbn [size h]; rewrite length_app; cbn [length]; lia).
  unfold split_transpose_merge; rewrite Hsplit; cbn [bind].
  fold (bind (transpose A h dim0 dim1)
          (fun h0 => bind (transpose A h0 dim0 dim1) (fun h1 => merge_last A h1 2))).
  rewrite <- bind_assoc, transpose_twice by (try exact Hwfh; rewrite Hrank; assumption).
  cbn [bind].
  rewrite (merge_last_two h lead H (D / H) eq_refl Hlead).
  change (lead ++ [-1]) with (lead ++ -1 :: []).
  rewrite view_wildcard by (rewrite app_nil_r; apply positive_nonneg, Hpos).
  rewrite app_nil_r, Hnumel.
  replace (0 <? prod lead) with true by (symmetry; apply Z.ltb_lt; lia).
  rewrite Z.mul_comm, Z_mod_mult, Z.div_mul by lia.
  cbn [Z.eqb andb h elements]; rewrite <- Hsize.
  now destruct x.
Qed.

End RoundTrip.

(** *** Further properties of [merge_last] and [split_last] *)

Section Reshaping.

Variable A : Type.

Lemma view_raises (x : Tensor A) (shape : list Z) (e : exception) :
  view A x shape = Raise e -> e = RuntimeError.
Proof.
  unfold view.
  destruct (existsb _ shape); [now intros [= <-]|].
  destruct (1 <? count (-1) shape); [now intros [= <-]|].
  destruct (contains shape (-1)).
  - destruct ((0 <? _) && _); [intros Hok; discriminate Hok|now intros [= <-]].
  - destruct (prod shape =? numel A x); [intros Hok; discriminate Hok|now intros [= <-]].
Qed.

(** X12. [merge_last(x, n_dims)] raises [AssertionError] exactly when
    [1 < n_dims < rank] fails.  It raises [RuntimeError], from [view], when a
    dimension it keeps is zero.  Whenever it returns, it returns the elements
    of [x] under the dimensions it keeps, none of them zero, followed by the
    product of the [n_dims] dimensions it merges. *)
Theorem merge_last_spec (x : Tensor A) (n_dims : Z) :
  (merge_last A x n_dims = Raise AssertionError
   <-> ~ (1 < n_dims < Z.of_nat (length (size x)))) /\
  (forall lead tail : list Z,
     well_formed A x -> size x = lead ++ tail ->
     Z.of_nat (length tail) = n_dims -> 1 < n_dims -> lead <> [] ->
     prod lead = 0 ->
     merge_last A x n_dims = Raise RuntimeError) /\
  (forall y : Tensor A,
     well_formed A x -> merge_last A x n_dims = Ok y ->
     exists lead tail : list Z,
       size x = lead ++ tail /\ Z.of_nat (length tail) = n_dims /\
       lead <> [] /\ 0 < prod lead /\
       y = {| size := lead ++ [prod tail]; elements := elements x |}).
Proof.
  assert (Hmerge : forall lead tail : list Z,
            Forall (fun d => 0 <= d) lead -> size x = lead ++ tail ->
            Z.of_nat (length tail) = n_dims -> 1 < n_dims -> lead <> [] ->
            merge_last A x n_dims =
              if 0 <? prod lead
              then Ok {| size := lead ++ [prod tail]; elements := elements x |}
              else Raise RuntimeError).
  { intros lead tail Hnnlead Hsize Htail Hn Hlead.
    assert (0 < length lead)%nat by (destruct lead; [congruence|cbn; lia]).
    unfold merge_last; rewrite Hsize, length_app.
    replace (1 <? n_dims) with true by (symmetry; apply Z.ltb_lt; lia).
    replace (n_dims <? Z.of_nat (length lead + length tail)) with true
      by (symmetry; apply Z.ltb_lt; lia).
    cbn [andb].
    replace (length lead + length tail - Z.to_nat n_dims)%nat with (length lead + 0)%nat
      by lia.
    rewrite firstn_app_2, firstn_O, app_nil_r.
    change (lead ++ [-1]) with (lead ++ -1 :: []).
    rewrite view_wildcard by (rewrite app_nil_r; exact Hnnlead).
    rewrite app_nil_r.
    destruct (Z.ltb_spec 0 (prod lead)) as [Hpos|Hzero]; [|reflexivity].
    unfold numel; rewrite Hsize, prod_app, Z.mul_comm, Z_mod_mult, Z.div_mul by lia.
    reflexivity. }
  split; [|split].
  - split.
    + intros Hraise Hin; unfold merge_last in Hraise.
      replace (1 <? n_dims) with true in Hraise by (symmetry; apply Z.ltb_lt; lia).
      replace (n_dims <? Z.of_nat (length (size x))) with true in Hraise
        by (symmetry; apply Z.ltb_lt; lia).
      cbn [andb] in Hraise; apply view_raises in Hraise; discriminate.
    + intros Hout; unfold merge_last.
      destruct (Z.ltb_spec 1 n_dims); [|reflexivity].
      destruct (Z.ltb_spec n_dims (Z.of_nat (length (size x)))); [lia|reflexivity].
  - intros lead tail [Hnn _] Hsize Htail Hn Hlead Hzero.
    rewrite Hsize in Hnn; apply Forall_app in Hnn as [Hnnlead _].
    rewrite (Hmerge lead tail Hnnlead Hsize Htail Hn Hlead), Hzero.
    reflexivity.
  - intros y [Hnn _] Hok.
    assert (Hin : 1 < n_dims < Z.of_nat (length (size x))).
    { unfold merge_last in Hok.
      destruct (Z.ltb_spec 1 n_dims); [|discriminate].
      destruct (Z.ltb_spec n_dims (Z.of_nat (length (size x)))); [lia|discriminate]. }
    set (keep := (length (size x) - Z.to_nat n_dims)%nat).
    assert (Hsize : size x = firstn keep (size x) ++ skipn keep (size x))
      by (symmetry; apply firstn_skipn).
    assert (Htail : Z.of_nat (length (skipn keep (size x))) = n_dims)
      by (rewrite length_skipn; subst keep; lia).
    assert (Hlead : firstn keep (size x) <> []).
    { intros Hnil; apply (f_equal (@length Z)) in Hnil.
      rewrite length_firstn in Hnil; cbn [length] in Hnil; subst keep; lia. }
    assert (Hnnlead : Forall (fun d => 0 <= d) (firstn keep (size x))).
    { rewrite <- (firstn_skipn keep (size x)) in Hnn.
      now apply Forall_app in Hnn as [Hl _]. }
    rewrite (Hmerge _ _ Hnnlead Hsize Htail (proj1 Hin) Hlead) in Hok.
    destruct (Z.ltb_spec 0 (prod (firstn keep (size x)))) as [Hpos|_]; [|discriminate].
    injection Hok as <-.
    exists (firstn keep (size x)), (skipn keep (size x)).
    repeat (split; [assumption|]); reflexivity.
Qed.

(** A shape has no negative entry, or one wildcard and no other negative
    entry, or is one that [view] rejects. *)
Inductive shape_kind (shape : list Z) : Prop :=
| ExplicitShape : Forall (fun d => 0 <= d) shape -> shape_kind shape
| WildcardShape (pre post : list Z) :
    shape = pre ++ -1 :: post -> Forall (fun d => 0 <= d) (pre ++ post) ->
    shape_kind shape
| InvalidShape :
    existsb (fun d => d <? -1) shape = true \/ 1 < count (-1) shape ->
    shape_kind shape.

Lemma count_cons (a d : Z) (l : list Z) :
  count a (d :: l) = (if Z.eq_dec d a then 1 else 0) + count a l.
Proof.
  unfold count; cbn [count_occ]; destruct (Z.eq_dec d a); lia.
Qed.

Lemma count_nonneg (a : Z) (l : list Z) : 0 <= count a l.
Proof. unfold count; lia. Qed.

Lemma shape_kinds (shape : list Z) : shape_kind shape.
Proof.
  induction shape as [|d shape IH]; [apply ExplicitShape; constructor|].
  destruct (Z.ltb_spec d (-1)) as [Hbad|Hd].
  { apply InvalidShape; left; cbn [existsb].
    now replace (d <? -1) with true by (symmetry; apply Z.ltb_lt; lia). }
  pose proof (count_nonneg (-1) shape) as Hc.
  destruct IH as [Hnn|pre post Hshape Hnn|[Hbad|Hmany]].
  - destruct (Z.eq_dec d (-1)) as [->|Hne].
    + apply (WildcardShape _ [] shape); [reflexivity|exact Hnn].
    + apply ExplicitShape; constructor; [lia|exact Hnn].
  - destruct (Z.eq_dec d (-1)) as [->|Hne].
    + apply InvalidShape; right; rewrite count_cons.
      destruct (wildcard_shape pre post Hnn) as (_ & _ & W3 & _).
      rewrite Hshape, W3; destruct (Z.eq_dec (-1) (-1)); [lia|congruence].
    + apply (WildcardShape _ (d :: pre) post); [now rewrite Hshape|].
      cbn [app]; constructor; [lia|exact Hnn].
  - apply InvalidShape; left; cbn [existsb]; rewrite Hbad; apply orb_true_r.
  - apply InvalidShape; right; rewrite count_cons.
    destruct (Z.eq_dec d (-1)); lia.
Qed.

Lemma view_invalid (x : Tensor A) (shape : list Z) :
  existsb (fun d => d <? -1) shape = true \/ 1 < count (-1) shape ->
  view A x shape = Raise RuntimeError.
Proof.
  intros [Hbad|Hmany]; unfold view.
  - now rewrite Hbad.
  - destruct (existsb _ shape); [reflexivity|].
    now replace (1 <? count (-1) shape) with true by (symmetry; apply Z.ltb_lt; lia).
Qed.

Lemma prefix_before_wildcard (lead rest pre post : list Z) (v : Z) :
  lead ++ rest = pre ++ -1 :: post -> Forall (fun d => 0 <= d) lead ->
  exists rest', pre ++ v :: post = lead ++ rest' /\ length rest' = length rest.
Proof.
  revert pre; induction lead as [|a lead IH]; intros pre Hsplit Hlead.
  - cbn [app] in Hsplit; subst rest; eexists; split; [reflexivity|].
    rewrite !length_app; reflexivity.
  - inversion Hlead as [|? ? Ha Hlead']; subst.
    destruct pre as [|p pre]; cbn [app] in Hsplit; injection Hsplit as Hhead Htail.
    + lia.
    + destruct (IH pre Htail Hlead') as (rest' & Hr & Hl).
      exists rest'; split; [cbn [app]; now rewrite Hr, Hhead|exact Hl].
Qed.

(** What a successful [view] keeps. *)
Lemma view_keeps (x y : Tensor A) (shape : list Z) :
  well_formed A x -> view A x shape = Ok y ->
  well_formed A y /\ elements y = elements x /\ numel A y = numel A x /\
  length (size y) = length shape /\
  (forall lead rest, shape = lead ++ rest -> Forall (fun d => 0 <= d) lead ->
     exists rest', size y = lead ++ rest' /\ length rest' = length rest).
Proof.
  intros [Hnnx Hlenx] Hview.
  pose proof (prod_nonneg _ Hnnx) as Hnumel; fold (numel A x) in Hnumel.
  destruct (shape_kinds shape) as [Hnn|pre post Hshape Hnn|Hbad].
  - rewrite view_explicit in Hview by exact Hnn.
    destruct (Z.eqb_spec (prod shape) (numel A x)) as [Heq|_]; [|discriminate].
    injection Hview as <-; cbn [size elements]; unfold well_formed, numel; cbn [size elements].
    split; [split; [exact Hnn|rewrite Heq; exact Hlenx]|].
    split; [reflexivity|]; split; [exact Heq|]; split; [reflexivity|].
    intros lead rest -> _; now exists rest.
  - subst shape; rewrite view_wildcard in Hview by exact Hnn.
    pose proof (prod_nonneg _ Hnn) as HP.
    destruct (Z.ltb_spec 0 (prod (pre ++ post))) as [Hpos|_]; [|discriminate].
    destruct (Z.eqb_spec (numel A x mod prod (pre ++ post)) 0) as [Hmod|_]; [|discriminate].
    cbn [andb] in Hview; injection Hview as <-.
    assert (Hq : prod (pre ++ post) * (numel A x / prod (pre ++ post)) = numel A x)
      by (symmetry; apply Z_div_exact_full_2; [lia|exact Hmod]).
    assert (Hqnn : 0 <= numel A x / prod (pre ++ post)) by (apply Z.div_pos; lia).
    assert (Hprod : prod (pre ++ numel A x / prod (pre ++ post) :: post) = numel A x).
    { remember (numel A x / prod (pre ++ post)) as q eqn:Hdef; clear Hdef.
      rewrite <- Hq, !prod_app, prod_cons; ring. }
    apply Forall_app in Hnn as [Hpre Hpost].
    unfold well_formed, numel in *; cbn [size elements].
    split; [split|split; [reflexivity|split; [|split]]].
    + apply Forall_app; split; [exact Hpre|constructor; assumption].
    + congruence.
    + exact Hprod.
    + rewrite !length_app; reflexivity.
    + intros lead rest Hsplit Hlead.
      now apply (prefix_before_wildcard lead rest pre post).
  - rewrite view_invalid in Hview by exact Hbad; discriminate.
Qed.

Lemma Forall_removelast {X : Type} (P : X -> Prop) (l : list X) :
  Forall P l -> Forall P (removelast l).
Proof.
  induction 1 as [|a l Ha Hl IH]; [constructor|].
  cbn [removelast]; destruct l; [constructor|now constructor].
Qed.

Lemma length_set_item (l : list Z) (k : nat) (v : Z) : length (set_item l k v) = length l.
Proof.
  revert k; induction l as [|a l IH]; intros [|k]; cbn; try reflexivity.
  now rewrite IH.
Qed.

(** X13. Whatever [shape] is, a call of [split_last] that returns keeps the
    elements of [x] and their number, keeps every dimension but the last, puts
    as many dimensions as [shape] has in place of the last, and returns a
    well-formed tensor. *)
Theorem split_last_keeps (x y : Tensor A) (shape : list Z) :
  well_formed A x -> split_last A x shape = Ok y ->
  well_formed A y /\ elements y = elements x /\ numel A y = numel A x /\
  exists tail : list Z,
    size y = removelast (size x) ++ tail /\ length tail = length shape.
Proof.
  intros Hwf Hsplit; unfold split_last in Hsplit.
  destruct (count (-1) shape <=? 1); [|discriminate].
  assert (Hview : exists shape', length shape' = length shape /\
                    view A x (removelast (size x) ++ shape') = Ok y).
  { destruct (contains shape (-1)).
    - destruct (size_last A x) as [d|e]; cbn [bind] in Hsplit; [|discriminate].
      destruct (int_true_div d (- prod shape)) as [v|e]; cbn [bind] in Hsplit;
        [|discriminate].
      eexists; split; [apply length_set_item|exact Hsplit].
    - cbn [bind] in Hsplit; now exists shape. }
  destruct Hview as (shape' & Hlen & Hview).
  destruct (view_keeps x y _ Hwf Hview) as (Hwfy & Hels & Hnumel & _ & Hlead).
  destruct (Hlead (removelast (size x)) shape' eq_refl) as (tail & Hsize & Htail).
  { apply Forall_removelast, Hwf. }
  split; [exact Hwfy|]; split; [exact Hels|]; split; [exact Hnumel|].
  exists tail; split; [exact Hsize|congruence].
Qed.

Lemma prod_zero (l : list Z) : In 0 l -> prod l = 0.
Proof.
  induction l as [|d l IH]; intros Hin; [contradiction|].
  rewrite prod_cons; destruct Hin as [->|Hin]; [lia|rewrite IH by exact Hin; lia].
Qed.

(** X14. With a wildcard in [shape], [split_last] raises [IndexError] on a
    tensor of rank 0, which has no last dimension, and raises on a zero among
    the listed dimensions, where the division gives an infinity or a NaN that
    [int] refuses. *)
Theorem split_last_wildcard_errors (x : Tensor A) (shape : list Z) :
  count (-1) shape <= 1 -> contains shape (-1) = true ->
  (size x = [] -> split_last A x shape = Raise IndexError) /\
  (forall (lead : list Z) (D : Z),
     size x = lead ++ [D] -> In 0 shape ->
     split_last A x shape = Raise (if D =? 0 then ValueError else OverflowError)).
Proof.
  intros Hcount Hwild; unfold split_last.
  replace (count (-1) shape <=? 1) with true by (symmetry; apply Z.leb_le; exact Hcount).
  rewrite Hwild; split.
  - intros Hsize; unfold size_last; now rewrite Hsize.
  - intros lead D Hsize Hzero.
    rewrite (size_last_app A x lead D Hsize), (prod_zero shape Hzero).
    reflexivity.
Qed.

(** X15. The head split of the attention: on a well-formed tensor of size
    (B, S, D) and a positive head count [H] that divides [D], it returns a
    well-formed tensor of size (B, H, S, D / H) with as many elements. *)
Theorem split_heads_size (x : Tensor A) (B S D H : Z) :
  well_formed A x -> size x = [B; S; D] -> 0 < H -> (H | D) ->
  exists h : Tensor A,
    split_heads A x H = Ok h /\ size h = [B; H; S; D / H] /\
    well_formed A h /\ numel A h = numel A x.
Proof.
  intros Hwf Hsize HH Hdiv.
  assert (HHD : H * (D / H) = D)
    by (destruct Hdiv as [k ->]; rewrite Z.div_mul by lia; ring).
  destruct Hwf as [Hnn Hlen]; rewrite Hsize in Hnn, Hlen.
  inversion Hnn as [|? ? HB Hnn1]; subst.
  inversion Hnn1 as [|? ? HS Hnn2]; subst.
  inversion Hnn2 as [|? ? HD _]; subst.
  unfold split_heads.
  change [H; -1] with ([H] ++ -1 :: []).
  rewrite (split_last_wildcard_divisible A x [B; S] [H] [] D).
  - cbn [bind app prod fold_right]; rewrite Z.mul_1_r.
    eexists; split; [reflexivity|cbn [size elements]].
    split; [reflexivity|].
    assert (Hprod : prod [B; H; S; D / H] = prod [B; S; D])
      by (cbn [prod fold_right]; rewrite <- HHD at 2; ring).
    split; [split|].
    + change (Forall (fun d => 0 <= d) [B; H; S; D / H]).
      assert (0 <= D / H) by (apply Z.div_pos; lia).
      repeat (constructor; [lia|]); constructor.
    + change (Z.of_nat (length (transpose_elements A (map Z.to_nat [B; S; H; D / H])
                                 (Z.to_nat 1) (Z.to_nat 2) (elements x)))
              = prod [B; H; S; D / H]).
      rewrite length_transpose_elements, Hprod; exact Hlen.
    + unfold numel; rewrite Hsize; exact Hprod.
  - split; rewrite Hsize; assumption.
  - exact Hsize.
  - repeat constructor; exact HH.
  - cbn [app prod fold_right]; now rewrite Z.mul_1_r.
Qed.

(** X16. The head merge of the attention: on a well-formed tensor of size
    (B, H, S, W) it returns a tensor of size (B, S, H * W) with as many
    elements when the batch and the sequence are not empty, and raises in
    [view] when one of them is. *)
Theorem merge_heads_size (h : Tensor A) (B H S W : Z) :
  well_formed A h -> size h = [B; H; S; W] ->
  exists els : list A,
    length els = length (elements h) /\
    merge_heads A h =
      if 0 <? B * S
      then Ok {| size := [B; S; H * W]; elements := els |}
      else Raise RuntimeError.
Proof.
  intros [Hnn Hlen] Hsize; rewrite Hsize in Hnn.
  inversion Hnn as [|? ? HB Hnn1]; subst.
  inversion Hnn1 as [|? ? HH Hnn2]; subst.
  inversion Hnn2 as [|? ? HS Hnn3]; subst.
  inversion Hnn3 as [|? ? HW _]; subst.
  set (els := transpose_elements A (map Z.to_nat [B; H; S; W]) 1 2 (elements h)).
  set (t := {| size := [B; S; H; W]; elements := els |}).
  exists els; split; [apply length_transpose_elements|].
  assert (Htranspose : transpose A h 1 2 = Ok t)
    by (unfold transpose; rewrite Hsize; reflexivity).
  unfold merge_heads; rewrite Htranspose; cbn [bind].
  rewrite (merge_last_two A t [B; S] H W eq_refl) by discriminate.
  change ([B; S] ++ [-1]) with ([B; S] ++ -1 :: []).
  rewrite view_wildcard by (repeat constructor; assumption).
  cbn [app prod fold_right]; rewrite !Z.mul_1_r.
  destruct (Z.ltb_spec 0 (B * S)) as [Hpos|_]; [|reflexivity].
  replace (numel A t) with (H * W * (B * S))
    by (unfold numel, t; cbn [size prod fold_right]; ring).
  rewrite Z_mod_mult, Z.div_mul by lia.
  reflexivity.
Qed.

End Reshaping.

(** *** The shape helpers on concrete tensors *)

Definition sequence_tensor : Tensor Z :=
  {| size := [1; 2; 4]; elements := [0; 1; 2; 3; 4; 5; 6; 7] |}.

Definition matrix_tensor : Tensor Z :=
  {| size := [2; 3]; elements := [0; 1; 2; 3; 4; 5] |}.

Definition vector_tensor : Tensor Z :=
  {| size := [4]; elements := [0; 1; 2; 3] |}.

Definition empty_batch (D : Z) : Tensor Z := {| size := [0; D]; elements := [] |}.

Lemma sequence_tensor_well_formed : well_formed Z sequence_tensor.
Proof. split; [repeat constructor; lia|reflexivity]. Qed.




(** C7 fails on a tensor of rank 1: after the split the rank is 2, and
    [merge_last] asserts that it merges fewer dimensions than the tensor has
    (and [transpose(1, 2)], the transposition of the attention code, has no
    dimension 2 to act on).  It fails on an empty batch too, where [view]
    cannot infer the merged dimension. *)
Lemma round_trip_fails_on_a_vector :
  well_formed Z vector_tensor /\
  (2 | 4) /\
  split_transpose_merge Z vector_tensor 2 0 1 = Raise AssertionError /\
  split_transpose_merge Z vector_tensor 2 1 2 = Raise IndexError /\
  split_transpose_merge Z (empty_batch 4) 2 1 2 = Raise RuntimeError.
Proof.
  split; [split; [repeat constructor; lia|reflexivity]|].
  split; [exists 2; reflexivity|].
  repeat split.
Qed.

Lemma split_merge_round_trip_witness :
  split_transpose_merge Z sequence_tensor 2 1 2 = Ok sequence_tensor.
Proof.
  apply (split_merge_round_trip Z sequence_tensor [1; 2] 4 2 1 2).
  - exact sequence_tensor_well_formed.
  - reflexivity.
  - discriminate.
  - repeat constructor.
  - lia.
  - exists 2; reflexivity.
  - cbn; lia.
  - cbn; lia.
Defined.

(** *** The further properties on concrete tensors *)

Definition heads_tensor : Tensor Z :=
  {| size := [1; 2; 2; 2]; elements := [0; 1; 2; 3; 4; 5; 6; 7] |}.

Definition scalar_tensor : Tensor Z := {| size := []; elements := [5] |}.

Lemma heads_tensor_well_formed : well_formed Z heads_tensor.
Proof. split; [repeat constructor; lia|reflexivity]. Qed.

Lemma merge_last_spec_witness :
  merge_last Z vector_tensor 2 = Raise AssertionError /\
  merge_last Z {| size := [0; 2; 2]; elements := [] |} 2 = Raise RuntimeError /\
  exists lead tail : list Z,
    size heads_tensor = lead ++ tail /\ Z.of_nat (length tail) = 2 /\
    lead <> [] /\ 0 < prod lead /\
    {| size := [1; 2; 4]; elements := [0; 1; 2; 3; 4; 5; 6; 7] |}
      = {| size := lead ++ [prod tail]; elements := elements heads_tensor |}.
Proof.
  split; [|split].
  - apply (proj1 (merge_last_spec Z vector_tensor 2)); cbn; lia.
  - apply (proj1 (proj2 (merge_last_spec Z {| size := [0; 2; 2]; elements := [] |} 2))
             [0] [2; 2]).
    + split; [repeat constructor; lia|reflexivity].
    + reflexivity.
    + reflexivity.
    + lia.
    + discriminate.
    + reflexivity.
  - apply (proj2 (proj2 (merge_last_spec Z heads_tensor 2))).
    + exact heads_tensor_well_formed.
    + reflexivity.
Defined.

Lemma split_last_keeps_witness :
  well_formed Z {| size := [1; 2; 2; 2]; elements := [0; 1; 2; 3; 4; 5; 6; 7] |} /\
  exists tail : list Z,
    [1; 2; 2; 2] = removelast (size sequence_tensor) ++ tail /\ length tail = 2%nat.
Proof.
  destruct (split_last_keeps Z sequence_tensor
              {| size := [1; 2; 2; 2]; elements := [0; 1; 2; 3; 4; 5; 6; 7] |} [2; -1])
    as (Hwf & _ & _ & Htail).
  - exact sequence_tensor_well_formed.
  - reflexivity.
  - split; [exact Hwf|exact Htail].
Defined.

Lemma split_last_wildcard_errors_witness :
  split_last Z scalar_tensor [-1] = Raise IndexError /\
  split_last Z matrix_tensor [0; -1] = Raise OverflowError.
Proof.
  split.
  - apply (proj1 (split_last_wildcard_errors Z scalar_tensor [-1]
                    ltac:(cbn; lia) eq_refl)); reflexivity.
  - apply (proj2 (split_last_wildcard_errors Z matrix_tensor [0; -1]
                    ltac:(cbn; lia) eq_refl) [2] 3); [reflexivity|now left].
Defined.

Lemma split_heads_size_witness :
  exists h : Tensor Z,
    split_heads Z sequence_tensor 2 = Ok h /\ size h = [1; 2; 2; 2] /\
    well_formed Z h /\ numel Z h = 8.
Proof.
  destruct (split_heads_size Z sequence_tensor 1 2 4 2) as (h & Hsplit & Hsize & Hwf & Hn).
  - exact sequence_tensor_well_formed.
  - reflexivity.
  - lia.
  - exists 2; reflexivity.
  - exists h; repeat split; try assumption; apply Hwf.
Defined.

Lemma merge_heads_size_witness :
  exists els : list Z,
    length els = 8%nat /\
    merge_heads Z heads_tensor = Ok {| size := [1; 2; 4]; elements := els |}.
Proof.
  destruct (merge_heads_size Z heads_tensor 1 2 2 2) as (els & Hlen & Hmerge).
  - exact heads_tensor_well_formed.
  - reflexivity.
  - exists els; split; [exact Hlen|exact Hmerge].
Defined.

End Reshaper.

(** ** The masking step of the attention *)

Module Attention.

Local Open Scope R_scope.

(** The raw scores [q @ k.transpose(-2, -1) / sqrt(W)], of size (B, H, S, S),
    by index: batch, head, query position, key position.  Arithmetic is that
    of the real numbers. *)
Definition Scores : Type := nat -> nat -> nat -> nat -> R.

(** A mask of size (B, S), by index. *)
Definition Mask : Type := nat -> nat -> R.

(** [scores -= 10000.0 * (1.0 - mask[:, None, None, :].float())] when a mask
    is given: by broadcasting, entry (b, h, i, j) reads the mask at (b, j). *)
Definition masked_scores (scores : Scores) (mask : option Mask) : Scores :=
  match mask with
  | None => scores
  | Some mask => fun b h i j => scores b h i j - 10000 * (1 - mask b j)
  end.

(** The sum of [f] over the [S] positions of the last axis. *)
Definition row_sum (S : nat) (f : nat -> R) : R :=
  fold_right Rplus 0 (map f (seq 0 S)).

(** [F.softmax(scores, dim=-1)] on rows of length [S]. *)
Definition softmax (S : nat) (scores : Scores) : Scores :=
  fun b h i j => exp (scores b h i j) / row_sum S (fun k => exp (scores b h i k)).

(** The attention weights [self.scores] of [MultiHeadedSelfAttention.forward]
    (the dropout is the identity in evaluation mode). *)
Definition attention_weights (S : nat) (scores : Scores) (mask : option Mask) : Scores :=
  softmax S (masked_scores scores mask).

Lemma sum_ge_member (f : nat -> R) (l : list nat) (k : nat) :
  (forall n, 0 <= f n) -> In k l -> f k <= fold_right Rplus 0 (map f l).
Proof.
  intros Hf; induction l as [|n l IH]; intros Hk; [contradiction|].
  cbn [map fold_right].
  assert (Hrest : 0 <= fold_right Rplus 0 (map f l)).
  { clear - Hf; induction l as [|m l IHl]; cbn; [lra|]. specialize (Hf m); lra. }
  destruct Hk as [->|Hk]; [lra|].
  specialize (IH Hk); specialize (Hf n); lra.
Qed.

Lemma row_sum_ge (S : nat) (f : nat -> R) (k : nat) :
  (forall n, 0 < f n) -> (k < S)%nat -> f k <= row_sum S f.
Proof.
  intros Hf Hk; apply sum_ge_member.
  - intros n; left; apply Hf.
  - apply in_seq; lia.
Qed.

Lemma exp_monotone (x y : R) : x <= y -> exp x <= exp y.
Proof.
  intros [Hlt | ->]; [left; now apply exp_increasing|right; reflexivity].
Qed.

(** A softmax weight is at most the ratio of its exponential to that of any
    position of its row. *)
Lemma softmax_ratio (S : nat) (scores : Scores) (b h i j k : nat) :
  (k < S)%nat ->
  0 < softmax S scores b h i j <= exp (scores b h i j - scores b h i k).
Proof.
  intros Hk; unfold softmax.
  pose proof (exp_pos (scores b h i j)) as Hj.
  pose proof (exp_pos (scores b h i k)) as Hpk.
  pose proof (row_sum_ge S (fun n => exp (scores b h i n)) k
                (fun n => exp_pos _) Hk) as Hsum; cbv beta in Hsum.
  assert (Hpos : 0 < row_sum S (fun n => exp (scores b h i n))) by lra.
  split.
  - apply Rdiv_lt_0_compat; assumption.
  - unfold Rminus; rewrite exp_plus, exp_Ropp.
    unfold Rdiv; apply Rmult_le_compat_l; [lra|].
    apply Rinv_le_contravar; assumption.
Qed.

(** C8, as the code has it. Over the real numbers, with a mask that is 0 at
    position [j] and 1 at some position [k] of the same row, the weight of
    position [j] is at most [exp (s_j - s_k - 10000)], for every batch, head
    and query, where [s] are the raw scores of the row: it is within [eps] of
    0 as soon as [s_j - s_k - 10000 <= ln eps]. *)
Theorem masked_position_weight (S : nat) (scores : Scores) (mask : Mask)
    (b h i j k : nat) :
  (j < S)%nat -> (k < S)%nat -> mask b j = 0 -> mask b k = 1 ->
  0 <= attention_weights S scores (Some mask) b h i j
    <= exp (scores b h i j - scores b h i k - 10000) /\
  (forall eps : R, 0 < eps -> scores b h i j - scores b h i k - 10000 <= ln eps ->
     Rabs (attention_weights S scores (Some mask) b h i j - 0) <= eps).
Proof.
  intros Hj Hk Hmj Hmk.
  pose proof (softmax_ratio S (masked_scores scores (Some mask)) b h i j k Hk)
    as [Hpos Hle].
  cbn [masked_scores] in Hle; rewrite Hmj, Hmk in Hle.
  replace (scores b h i j - 10000 * (1 - 0) - (scores b h i k - 10000 * (1 - 1)))
    with (scores b h i j - scores b h i k - 10000) in Hle by ring.
  unfold attention_weights; split; [split; [left; exact Hpos|exact Hle]|].
  intros eps Heps Hln.
  rewrite Rminus_0_r, Rabs_pos_eq by (left; exact Hpos).
  apply (Rle_trans _ _ _ Hle).
  rewrite <- (exp_ln eps Heps); now apply exp_monotone.
Qed.

(** *** Further properties of the attention weights *)

Lemma sum_scale (f : nat -> R) (c : R) (l : list nat) :
  fold_right Rplus 0 (map (fun n => f n * c) l) = fold_right Rplus 0 (map f l) * c.
Proof. induction l as [|n l IH]; cbn [map fold_right]; [ring|rewrite IH; ring]. Qed.

Lemma sum_ext (f g : nat -> R) (l : list nat) :
  (forall n, In n l -> f n = g n) ->
  fold_right Rplus 0 (map f l) = fold_right Rplus 0 (map g l).
Proof.
  induction l as [|n l IH]; intros Hfg; [reflexivity|].
  cbn [map fold_right]; rewrite (Hfg n) by now left.
  rewrite IH; [reflexivity|]; intros m Hm; apply Hfg; now right.
Qed.

Lemma row_sum_exp_pos (S : nat) (scores : Scores) (b h i : nat) :
  (0 < S)%nat -> 0 < row_sum S (fun k => exp (scores b h i k)).
Proof.
  intros HS.
  pose proof (row_sum_ge S (fun n => exp (scores b h i n)) O (fun n => exp_pos _) HS)
    as Hsum; cbv beta in Hsum.
  pose proof (exp_pos (scores b h i O)); lra.
Qed.

(** X17. The weights of every row sum to 1, with or without a mask. *)
Theorem attention_weights_row_sum (S : nat) (scores : Scores) (mask : option Mask)
    (b h i : nat) :
  (0 < S)%nat ->
  row_sum S (fun j => attention_weights S scores mask b h i j) = 1.
Proof.
  intros HS; unfold attention_weights, softmax, row_sum, Rdiv.
  rewrite (sum_scale (fun j => exp (masked_scores scores mask b h i j))).
  apply Rinv_r, Rgt_not_eq.
  apply (row_sum_exp_pos S (masked_scores scores mask) b h i HS).
Qed.

(** X18. Over the real numbers, every weight lies between 0 and 1, with or
    without a mask: with X17, each row of weights is a probability
    distribution over the positions. *)
Theorem attention_weights_bounds (S : nat) (scores : Scores) (mask : option Mask)
    (b h i j : nat) :
  (j < S)%nat -> 0 <= attention_weights S scores mask b h i j <= 1.
Proof.
  intros Hj; unfold attention_weights.
  pose proof (softmax_ratio S (masked_scores scores mask) b h i j j Hj) as [Hpos Hle].
  replace (masked_scores scores mask b h i j - masked_scores scores mask b h i j)
    with 0 in Hle by ring.
  rewrite exp_0 in Hle; split; [left; exact Hpos|exact Hle].
Qed.

(** X19. A mask that is constant along a row leaves the weights of the row as
    they are without a mask: the mask of ones masks nothing, and so does the
    mask of zeros. *)
Theorem constant_mask_has_no_effect (S : nat) (scores : Scores) (mask : Mask) (c : R)
    (b h i j : nat) :
  (j < S)%nat -> (forall k, (k < S)%nat -> mask b k = c) ->
  attention_weights S scores (Some mask) b h i j
    = attention_weights S scores None b h i j.
Proof.
  intros Hj Hconst; unfold attention_weights, softmax, row_sum; cbn [masked_scores].
  assert (Hshift : forall k, (k < S)%nat ->
            exp (scores b h i k - 10000 * (1 - mask b k))
              = exp (scores b h i k) * exp (- (10000 * (1 - c)))).
  { intros k Hk; rewrite (Hconst k Hk), <- exp_plus; f_equal; ring. }
  rewrite (Hshift j Hj).
  rewrite (sum_ext (fun k => exp (scores b h i k - 10000 * (1 - mask b k)))
             (fun k => exp (scores b h i k) * exp (- (10000 * (1 - c)))))
    by (intros k Hk; apply Hshift; apply in_seq in Hk; lia).
  rewrite sum_scale.
  pose proof (exp_pos (- (10000 * (1 - c)))) as Hc.
  assert (HS : (0 < S)%nat) by lia.
  pose proof (row_sum_exp_pos S scores b h i HS) as Hsum; unfold row_sum in Hsum.
  field; split; apply Rgt_not_eq; assumption.
Qed.

(** X20. Masking keeps the proportions between the positions it leaves
    visible: for two positions with mask 1, the ratio of their weights is the
    ratio of the exponentials of their raw scores. *)
Theorem visible_positions_keep_proportions (S : nat) (scores : Scores) (mask : Mask)
    (b h i j k : nat) :
  mask b j = 1 -> mask b k = 1 -> (k < S)%nat ->
  attention_weights S scores (Some mask) b h i j
    / attention_weights S scores (Some mask) b h i k
  = exp (scores b h i j - scores b h i k).
Proof.
  intros Hmj Hmk Hk; unfold attention_weights, softmax; cbn [masked_scores].
  rewrite Hmj, Hmk.
  replace (scores b h i j - 10000 * (1 - 1)) with (scores b h i j) by ring.
  replace (scores b h i k - 10000 * (1 - 1)) with (scores b h i k) by ring.
  assert (HS : (0 < S)%nat) by lia.
  pose proof (row_sum_exp_pos S (masked_scores scores (Some mask)) b h i HS) as Hsum.
  cbn [masked_scores] in Hsum.
  pose proof (exp_pos (scores b h i k)) as Hek.
  unfold Rminus; rewrite exp_plus, exp_Ropp.
  field; split; apply Rgt_not_eq; assumption.
Qed.

(** *** The masking step on concrete rows *)

Definition zero_scores : Scores := fun _ _ _ _ => 0.

Definition all_masked : Mask := fun _ _ => 0.

Definition first_masked : Mask := fun _ j => match j with O => 0 | _ => 1 end.

(** C8 fails when every position of a row is masked: on a row of length 1
    whose only position has mask 0, the weight of that position is 1. *)
Lemma fully_masked_row_weight :
  all_masked 0%nat 0%nat = 0 /\
  attention_weights 1 zero_scores (Some all_masked) 0%nat 0%nat 0%nat 0%nat = 1.
Proof.
  split; [reflexivity|].
  unfold attention_weights, softmax, row_sum; cbn [map seq fold_right masked_scores].
  rewrite Rplus_0_r; unfold Rdiv; apply Rinv_r.
  apply Rgt_not_eq, exp_pos.
Qed.

Lemma masked_position_weight_witness :
  0 <= attention_weights 2 zero_scores (Some first_masked) 0%nat 0%nat 0%nat 0%nat
    <= exp (0 - 0 - 10000).
Proof.
  destruct (masked_position_weight 2 zero_scores first_masked 0 0 0 0 1)%nat
    as [Hbound _]; [lia|lia|reflexivity|reflexivity|exact Hbound].
Defined.

Lemma attention_weights_row_sum_witness :
  row_sum 2 (fun j => attention_weights 2 zero_scores (Some first_masked) 0%nat 0%nat 0%nat j)
    = 1.
Proof.
  apply (attention_weights_row_sum 2 zero_scores (Some first_masked) 0 0 0)%nat; lia.
Defined.

Lemma attention_weights_bounds_witness :
  0 <= attention_weights 2 zero_scores (Some first_masked) 0%nat 0%nat 0%nat 0%nat <= 1.
Proof.
  apply (attention_weights_bounds 2 zero_scores (Some first_masked) 0 0 0 0)%nat; lia.
Defined.

Lemma constant_mask_has_no_effect_witness :
  attention_weights 2 zero_scores (Some all_masked) 0%nat 0%nat 0%nat 1%nat
    = attention_weights 2 zero_scores None 0%nat 0%nat 0%nat 1%nat.
Proof.
  apply (constant_mask_has_no_effect 2 zero_scores all_masked 0 0 0 0 1)%nat;
    [lia|reflexivity].
Defined.

Lemma visible_positions_keep_proportions_witness :
  attention_weights 3 zero_scores (Some first_masked) 0%nat 0%nat 0%nat 1%nat
    / attention_weights 3 zero_scores (Some first_masked) 0%nat 0%nat 0%nat 2%nat
  = exp (0 - 0).
Proof.
  apply (visible_positions_keep_proportions 3 zero_scores first_masked 0 0 0 1 2)%nat;
    [reflexivity|reflexivity|lia].
Defined.

End Attention.
